(** * The frame pipeline of vision: main.py and pi_camera.py

  Both programs run one capture thread that refreshes a global
  "latest frame" under a lock, and one generator per HTTP client that
  reads the global under the same lock and yields multipart chunks.
  main.py also keeps the detections of the latest frame and serves them
  as JSON.

  The threads are embedded as program-counter machines, one step per
  statement that touches shared state; a schedule (a list of actions)
  picks the thread that runs next, so a statement about all schedules is
  a statement about all interleavings. *)

From Stdlib Require Import ZArith QArith String Ascii List DecimalString Lia.
From stdpp Require Import base option list strings gmap.
Import ListNotations.
Set Warnings "-register-all".

(** ** Byte strings *)

Definition bytes : Type := list Byte.byte.

(** [b"\r\n"] *)
Definition CRLF : bytes := [Byte.x0d; Byte.x0a].

(** An ASCII literal without escapes, as a byte string. *)
Definition ascii_bytes (s : string) : bytes := list_byte_of_string s.

(** ** Lists of clients, lists of publish numbers *)

Definition nondecreasing (l : list nat) : Prop :=
  forall a b x y, a <= b -> l !! a = Some x -> l !! b = Some y -> x <= y.

(** Case analysis on a lookup in an updated or extended list of clients. *)
Ltac lookup_cases H :=
  first [ apply list_lookup_insert_Some in H as [(? & ? & ?)|(? & H)]
        | apply lookup_snoc_Some in H as [(? & H)|(? & ?)] ];
  simplify_eq.

(** ** External collaborators

  Python floats, OpenCV and the YOLO model are not code of the
  repository: they are interfaces, instantiated by a test double where a
  concrete run is needed. *)

Class PyFloat := {
  num : Type;
  fadd : num -> num -> num;
  fsub : num -> num -> num;
  fdiv : num -> num -> num;
  fle : num -> num -> bool;
  (** an [int] where a float is expected: the literals 2 and 10 *)
  of_int : Z -> num;
  (** [int(x)]; [None] when it raises (nan, infinities) *)
  py_int : num -> option Z;
  (** [float.__repr__], the rendering used by [json.dumps] *)
  float_repr : num -> string;
  (** [format(x, ".2f")] *)
  format_2f : num -> string;
  (** the escaping [json.dumps] applies inside a string literal *)
  json_escape : string -> string
}.

(** What [cv2.imencode] can do: raise [cv2.error], or return the pair
  [(retval, buf)]. *)
Inductive encoded :=
| EncRaised
| EncReturned (retval : bool) (buf : bytes).

Class OpenCV := {
  Image : Type;
  (** [cv2.rectangle(img, pt1, pt2, (0, 255, 0), 2)] *)
  rectangle : Image -> Z * Z -> Z * Z -> Image;
  (** [cv2.putText(img, label, org, FONT_HERSHEY_SIMPLEX, 0.5, (0, 255, 0), 2)] *)
  putText : Image -> string -> Z * Z -> Image;
  (** [cv2.imencode('.jpg', img)] *)
  imencode_jpg : Image -> encoded
}.

Section Detector.
Context `{PyFloat}.

(** One element of [result.boxes]: [box.xyxy[0].tolist()],
    [box.conf[0].item()], [box.cls[0].item()]. *)
Record Box := {
  xyxy : num * num * num * num;
  conf : num;
  cls : num
}.

(** [results[0]]: the boxes and the [names] dict. *)
Record Result := {
  boxes : list Box;
  names : gmap Z string
}.

Inductive inferred :=
| InferRaised
| InferReturned (r : Result).
End Detector.

Class Detector `{PyFloat} `{OpenCV} := {
  (** [model(img)] followed by [results[0]] *)
  model : Image -> inferred
}.

(** ** JSON as [json.dumps] writes it *)

Section Json.
Context `{PyFloat}.

Inductive json :=
| JFloat (x : num)
| JInt (z : Z)
| JStr (s : string)
| JArr (l : list json)
| JObj (kv : list (string * json)).

Definition quote : string := String "034"%char EmptyString.

Definition json_str (s : string) : string :=
  quote +:+ json_escape s +:+ quote.

(** [", ".join(items)] *)
Fixpoint join (items : list string) : string :=
  match items with
  | [] => ""
  | [x] => x
  | x :: rest => x +:+ ", " +:+ join rest
  end.

(** [json.dumps] with its default separators [(", ", ": ")]. *)
Fixpoint json_dumps (j : json) : string :=
  match j with
  | JFloat x => float_repr x
  | JInt z => NilZero.string_of_int (Z.to_int z)
  | JStr s => json_str s
  | JArr l => "[" +:+ join (map json_dumps l) +:+ "]"
  | JObj kv =>
      "{" +:+ join (map (fun p => match p with
                                  | (k, v) => json_str k +:+ ": " +:+ json_dumps v
                                  end) kv) +:+ "}"
  end.
End Json.

(** ** main.py *)

Module Main.
Section Program.
Context `{Detector}.

(** The dict appended to [current_detections] (lines 136-143); the keys
    are fixed, so it is a record. *)
Record Detection := {
  bbox : list num;
  confidence : num;
  class_id : Z;
  class_name : string;
  center_x : num;
  center_y : num
}.

(** How [json.dumps] sees a detection: the keys in insertion order. *)
Definition detection_json (d : Detection) : json :=
  JObj [ ("bbox", JArr (map JFloat (bbox d)));
         ("confidence", JFloat (confidence d));
         ("class_id", JInt (class_id d));
         ("class_name", JStr (class_name d));
         ("center_x", JFloat (center_x d));
         ("center_y", JFloat (center_y d)) ].

(** [json.dumps(detections)] *)
Definition dumps_detections (ds : list Detection) : string :=
  json_dumps (JArr (map detection_json ds)).

(** *** capture_video, lines 122-148: inference and annotation

    [None] stands for an exception that leaves the function. *)

(** The body of [for box in result.boxes] on the image being annotated
    and the list being built. *)
Definition for_body (nm : gmap Z string) (acc : Image * list Detection)
    (box : Box) : option (Image * list Detection) :=
  let '(img, current_detections) := acc in
  let '(x1, y1, x2, y2) := xyxy box in
  let c := conf box in
  k ← py_int (cls box);
  name ← nm !! k;
  let cx := fdiv (fadd x1 x2) (of_int 2) in
  let cy := fdiv (fadd y1 y2) (of_int 2) in
  let current_detections' :=
    current_detections ++
      [ {| bbox := [x1; y1; x2; y2]; confidence := c; class_id := k;
           class_name := name; center_x := cx; center_y := cy |} ] in
  ix1 ← py_int x1;
  iy1 ← py_int y1;
  ix2 ← py_int x2;
  iy2 ← py_int y2;
  let img1 := rectangle img (ix1, iy1) (ix2, iy2) in
  let label := name +:+ ": " +:+ format_2f c in
  lx ← py_int x1;
  ly ← py_int (fsub y1 (of_int 10));
  Some (putText img1 label (lx, ly), current_detections').

Fixpoint for_boxes (nm : gmap Z string) (bs : list Box)
    (acc : Image * list Detection) : option (Image * list Detection) :=
  match bs with
  | [] => Some acc
  | box :: rest => acc' ← for_body nm acc box; for_boxes nm rest acc'
  end.

(** Lines 122-148 on a frame just read. *)
Definition process (img : Image) : option (Image * list Detection) :=
  match model img with
  | InferRaised => None
  | InferReturned result => for_boxes (names result) (boxes result) (img, [])
  end.

(** *** generate_frames, lines 170-171, and the mimetype of line 180 *)

Definition chunk (jpg_bytes : bytes) : bytes :=
  (ascii_bytes "--frame" ++ CRLF) ++
  (ascii_bytes "Content-Type: image/jpeg" ++ CRLF ++ CRLF) ++
  jpg_bytes ++ CRLF.

Definition mimetype : string := "multipart/x-mixed-replace; boundary=frame".

(** *** Threads *)

Inductive tid :=
| Cap
| Cli (i : nat).

(** capture_video: the statement about to run, with the locals that are
    live there. *)
Inductive cap_pc :=
| L108                                          (* cap = cv2.VideoCapture(0) *)
| L118                                          (* ret, img = cap.read() *)
| L150 (img : Image) (cur : list Detection)     (* with lock: (acquire) *)
| L151 (img : Image) (cur : list Detection)     (* frame = img.copy() *)
| L152 (img : Image) (cur : list Detection)     (* detections = current_detections *)
| L152x (img : Image) (cur : list Detection)    (* leaving the with block *)
| CapReturned                                   (* line 112: return *)
| CapReleased                                   (* line 154 done *)
| CapRaised.                                    (* an exception left the function *)

(** generate_frames *)
Inductive gen_pc :=
| G160                    (* if frame is None *)
| G161                    (* time.sleep(0.1); continue *)
| G164                    (* with lock: (acquire) *)
| G165                    (* img = frame.copy() *)
| G165x (img : Image)     (* leaving the with block *)
| G167 (img : Image)      (* imencode, tobytes, yield *)
| GYield                  (* suspended at the yield *)
| GClosed                 (* closed by the server at the yield *)
| GRaised.                (* an exception left the generator *)

(** get_detections *)
Inductive det_pc :=
| Q184                    (* with lock: (acquire) *)
| Q185                    (* json.dumps(detections) *)
| Q185x (body : string)   (* leaving the with block, returning *)
| QDone.

Inductive client :=
| Stream (pc : gen_pc)
| Query (pc : det_pc).

(** The capture device: whether [isOpened()] holds, and the frames
    [cap.read()] still delivers before it reports failure. *)
Record Device := {
  opens : bool;
  feed : list Image
}.

Record state := State {
  frame : option Image;              (* global frame *)
  detections : list Detection;       (* global detections *)
  lock : option tid;                 (* global lock and its holder *)
  device : Device;
  cap : cap_pc;
  clients : list client
}.

Definition init (d : Device) : state :=
  {| frame := None; detections := []; lock := None;
     device := d; cap := L108; clients := [] |}.

Inductive event :=
| EvPrint (msg : string)
| EvPublish (img : Image) (ds : list Detection)
| EvSnapshot (i : nat) (f : option Image) (ds : list Detection)
| EvSleep (i : nat) (ms : nat)
| EvChunk (i : nat) (img : Image) (data : bytes)
| EvResponse (i : nat) (body : string).

Definition set_cap (pc : cap_pc) (s : state) : state :=
  {| frame := frame s; detections := detections s; lock := lock s;
     device := device s; cap := pc; clients := clients s |}.
Definition set_lock (l : option tid) (s : state) : state :=
  {| frame := frame s; detections := detections s; lock := l;
     device := device s; cap := cap s; clients := clients s |}.
Definition set_frame (f : option Image) (s : state) : state :=
  {| frame := f; detections := detections s; lock := lock s;
     device := device s; cap := cap s; clients := clients s |}.
Definition set_detections (ds : list Detection) (s : state) : state :=
  {| frame := frame s; detections := ds; lock := lock s;
     device := device s; cap := cap s; clients := clients s |}.
Definition set_feed (fd : list Image) (s : state) : state :=
  {| frame := frame s; detections := detections s; lock := lock s;
     device := {| opens := opens (device s); feed := fd |};
     cap := cap s; clients := clients s |}.
Definition set_client (i : nat) (c : client) (s : state) : state :=
  {| frame := frame s; detections := detections s; lock := lock s;
     device := device s; cap := cap s; clients := <[i := c]> (clients s) |}.
Definition add_client (c : client) (s : state) : state :=
  {| frame := frame s; detections := detections s; lock := lock s;
     device := device s; cap := cap s; clients := clients s ++ [c] |}.

(** One step of capture_video. [None]: the thread cannot run (it waits
    for the lock, or it has ended). *)
Definition step_capture (s : state) : option (state * list event) :=
  match cap s with
  | L108 =>
      if opens (device s) then Some (set_cap L118 s, [])
      else Some (set_cap CapReturned s, [EvPrint "Error: Could not open camera."])
  | L118 =>
      match feed (device s) with
      | [] => Some (set_cap CapReleased s, [])
      | img :: rest =>
          match process img with
          | None => Some (set_cap CapRaised (set_feed rest s), [])
          | Some (img', cur) => Some (set_cap (L150 img' cur) (set_feed rest s), [])
          end
      end
  | L150 img cur =>
      match lock s with
      | None => Some (set_cap (L151 img cur) (set_lock (Some Cap) s), [])
      | Some _ => None
      end
  | L151 img cur => Some (set_cap (L152 img cur) (set_frame (Some img) s), [])
  | L152 img cur => Some (set_cap (L152x img cur) (set_detections cur s), [])
  | L152x img cur => Some (set_cap L118 (set_lock None s), [EvPublish img cur])
  | CapReturned | CapReleased | CapRaised => None
  end.

(** One step of the generator of client [i]. *)
Definition step_stream (s : state) (i : nat) (pc : gen_pc)
    : option (state * list event) :=
  match pc with
  | G160 =>
      match frame s with
      | None => Some (set_client i (Stream G161) s, [])
      | Some _ => Some (set_client i (Stream G164) s, [])
      end
  | G161 => Some (set_client i (Stream G160) s, [EvSleep i 100])
  | G164 =>
      match lock s with
      | None => Some (set_client i (Stream G165) (set_lock (Some (Cli i)) s), [])
      | Some _ => None
      end
  | G165 =>
      match frame s with
      | None =>
          (* AttributeError; the with block releases the lock *)
          Some (set_client i (Stream GRaised) (set_lock None s),
                [EvSnapshot i None (detections s)])
      | Some img =>
          Some (set_client i (Stream (G165x img)) s,
                [EvSnapshot i (Some img) (detections s)])
      end
  | G165x img => Some (set_client i (Stream (G167 img)) (set_lock None s), [])
  | G167 img =>
      match imencode_jpg img with
      | EncRaised => Some (set_client i (Stream GRaised) s, [])
      | EncReturned _ buffer =>
          Some (set_client i (Stream GYield) s, [EvChunk i img (chunk buffer)])
      end
  | GYield => Some (set_client i (Stream G160) s, [])
  | GClosed | GRaised => None
  end.

(** One step of the handler of client [i]. *)
Definition step_query (s : state) (i : nat) (pc : det_pc)
    : option (state * list event) :=
  match pc with
  | Q184 =>
      match lock s with
      | None => Some (set_client i (Query Q185) (set_lock (Some (Cli i)) s), [])
      | Some _ => None
      end
  | Q185 =>
      Some (set_client i (Query (Q185x (dumps_detections (detections s)))) s,
            [EvSnapshot i (frame s) (detections s)])
  | Q185x body =>
      Some (set_client i (Query QDone) (set_lock None s), [EvResponse i body])
  | QDone => None
  end.

(** What the scheduler and the network can do next. *)
Inductive action :=
| Run (t : tid)          (* let a thread take its next step *)
| GetVideoFeed           (* a request for /video_feed arrives *)
| GetDetections          (* a request for /detections arrives *)
| Disconnect (i : nat).  (* the server closes generator [i] *)

Definition step (s : state) (a : action) : option (state * list event) :=
  match a with
  | Run Cap => step_capture s
  | Run (Cli i) =>
      match clients s !! i with
      | Some (Stream pc) => step_stream s i pc
      | Some (Query pc) => step_query s i pc
      | None => None
      end
  | GetVideoFeed => Some (add_client (Stream G160) s, [])
  | GetDetections => Some (add_client (Query Q184) s, [])
  | Disconnect i =>
      match clients s !! i with
      | Some (Stream GYield) => Some (set_client i (Stream GClosed) s, [])
      | _ => None
      end
  end.

(** A schedule run from [s]: the state reached and everything observed. *)
Fixpoint exec (s : state) (sched : list action) : option (state * list event) :=
  match sched with
  | [] => Some (s, [])
  | a :: rest =>
      match step s a with
      | None => None
      | Some (s1, evs) =>
          match exec s1 rest with
          | None => None
          | Some (s2, tr) => Some (s2, evs ++ tr)
          end
      end
  end.

(** *** Reachable states and what a trace records *)

Inductive reach (d : Device) : state -> list event -> Prop :=
| reach_init : reach d (init d) []
| reach_step s tr a s' evs :
    reach d s tr -> step s a = Some (s', evs) -> reach d s' (tr ++ evs).

(** The completed publishes of a trace, oldest first. *)
Fixpoint publishes (tr : list event) : list (Image * list Detection) :=
  match tr with
  | [] => []
  | EvPublish img ds :: rest => (img, ds) :: publishes rest
  | _ :: rest => publishes rest
  end.

(** What the two globals hold after the publishes of a trace. *)
Definition published (tr : list event) : option Image * list Detection :=
  match last (publishes tr) with
  | None => (None, [])
  | Some (img, ds) => (Some img, ds)
  end.

(** The frames client [i] has emitted, oldest first. *)
Fixpoint emitted (i : nat) (tr : list event) : list Image :=
  match tr with
  | [] => []
  | EvChunk j img _ :: rest =>
      if decide (j = i) then img :: emitted i rest else emitted i rest
  | _ :: rest => emitted i rest
  end.

(** Inside [with lock:] *)
Definition cap_holds (pc : cap_pc) : bool :=
  match pc with
  | L151 _ _ | L152 _ _ | L152x _ _ => true
  | _ => false
  end.

Definition client_holds (c : client) : bool :=
  match c with
  | Stream G165 | Stream (G165x _) | Query Q185 | Query (Q185x _) => true
  | _ => false
  end.


Definition store_inv (s : state) (tr : list event) : Prop :=
  match cap s with
  | L152 img _ => frame s = Some img
  | L152x img cur => frame s = Some img /\ detections s = cur
  | _ => (frame s, detections s) = published tr
  end.

Record inv (s : state) (tr : list event) : Prop := {
  inv_cap : cap_holds (cap s) = true -> lock s = Some Cap;
  inv_cli : forall i c, clients s !! i = Some c ->
            client_holds c = true -> lock s = Some (Cli i);
  inv_store : store_inv s tr
}.

(** *** Before the first publish *)


(** *** The order of the frames a generator emits *)

(** The published frames of a trace, oldest first: F1..Fn. *)
Definition frames (tr : list event) : list Image := (publishes tr).*1.

(** The frame generator [i] has copied and not yet emitted. *)
Definition held (i : nat) (s : state) : option Image :=
  match clients s !! i with
  | Some (Stream (G165x img)) | Some (Stream (G167 img)) => Some img
  | _ => None
  end.

(** Generator [i] has emitted frames of publishes whose numbers never
    decrease, and the frame it holds comes from a publish that is not
    older than any of them. *)
Definition order_inv (i : nat) (s : state) (tr : list event) : Prop :=
  exists idxs : list nat,
    Forall2 (fun k g => frames tr !! k = Some g) idxs (emitted i tr) /\
    nondecreasing idxs /\
    (forall img, held i s = Some img ->
       exists m, frames tr !! m = Some img /\ Forall (fun k => k <= m) idxs).

(** *** A capture thread that has ended *)

Definition cap_ended (pc : cap_pc) : bool :=
  match pc with
  | CapReturned | CapReleased | CapRaised => true
  | _ => false
  end.

(** *** The device that does not open *)



(** *** The detections served *)

(** [0 <= x <= 1] *)
Definition in_unit (x : num) : bool := fle (of_int 0) x && fle x (of_int 1).

(** The detection the loop body builds for a box. *)
Definition describes (nm : gmap Z string) (box : Box) (d : Detection) : Prop :=
  let '(x1, y1, x2, y2) := xyxy box in
  bbox d = [x1; y1; x2; y2] /\
  confidence d = conf box /\
  py_int (cls box) = Some (class_id d) /\
  nm !! class_id d = Some (class_name d) /\
  center_x d = fdiv (fadd x1 x2) (of_int 2) /\
  center_y d = fdiv (fadd y1 y2) (of_int 2).

(** A detection whose centre is the midpoint of its box and whose
    confidence lies in the unit interval. *)
Definition wf_detection (d : Detection) : Prop :=
  exists x1 y1 x2 y2,
    bbox d = [x1; y1; x2; y2] /\
    center_x d = fdiv (fadd x1 x2) (of_int 2) /\
    center_y d = fdiv (fadd y1 y2) (of_int 2) /\
    in_unit (confidence d) = true.

(** The detector reports confidences in the unit interval. *)
Definition calibrated : Prop :=
  forall img r box,
    model img = InferReturned r -> box ∈ boxes r -> in_unit (conf box) = true.

Definition pending (pc : cap_pc) : list Detection :=
  match pc with
  | L150 _ cur | L151 _ cur | L152 _ cur | L152x _ cur => cur
  | _ => []
  end.

Definition served (s : state) : Prop :=
  Forall wf_detection (detections s) /\
  Forall wf_detection (pending (cap s)) /\
  forall i body, clients s !! i = Some (Query (Q185x body)) ->
    exists ds, body = dumps_detections ds /\ Forall wf_detection ds.

(** *** Chunks *)

(** [b'--frame\r\nContent-Type: image/jpeg\r\n\r\n'] *)
Definition chunk_head : bytes :=
  ascii_bytes "--frame" ++ CRLF ++
  ascii_bytes "Content-Type: image/jpeg" ++ CRLF ++ CRLF.

(** *** A generator that has ended *)

Definition gen_ended (c : client) : bool :=
  match c with
  | Stream GRaised | Stream GClosed => true
  | _ => false
  end.

(** *** The loop of capture_video run on its own

    What lines 117-152 publish from the frames the camera delivers, and
    whether the loop ends by the break of line 120 ([true]) or by an
    exception ([false]). *)
Fixpoint capture_all (imgs : list Image) : list (Image * list Detection) * bool :=
  match imgs with
  | [] => ([], true)
  | img :: rest =>
      match process img with
      | None => ([], false)
      | Some r => let '(ps, ok) := capture_all rest in (r :: ps, ok)
      end
  end.

Definition prepend (l : list (Image * list Detection))
    (r : list (Image * list Detection) * bool) : list (Image * list Detection) * bool :=
  (l ++ r.1, r.2).

(** The frame processed and not yet published. *)
Definition in_flight (pc : cap_pc) : list (Image * list Detection) :=
  match pc with
  | L150 img cur | L151 img cur | L152 img cur | L152x img cur => [(img, cur)]
  | _ => []
  end.

Definition camera_inv (d : Device) (s : state) (tr : list event) : Prop :=
  match cap s with
  | L108 => feed (device s) = feed d /\ publishes tr = []
  | CapReturned => publishes tr = []
  | CapReleased => capture_all (feed d) = (publishes tr, true)
  | CapRaised => capture_all (feed d) = (publishes tr, false)
  | _ => capture_all (feed d)
         = prepend (publishes tr ++ in_flight (cap s))
                   (capture_all (feed (device s)))
  end.

(** What makes the body of the for loop raise on a box: [int()] fails on
    the class or on a coordinate, or the class is no key of [names]. *)
Definition body_raises (nm : gmap Z string) (box : Box) : Prop :=
  let '(x1, y1, x2, y2) := xyxy box in
  py_int (cls box) = None \/
  (exists k, py_int (cls box) = Some k /\ nm !! k = None) \/
  py_int x1 = None \/ py_int y1 = None \/ py_int x2 = None \/
  py_int y2 = None \/ py_int (fsub y1 (of_int 10)) = None.

(** *** Who holds the lock *)

Definition owner_inv (s : state) : Prop :=
  match lock s with
  | None => True
  | Some Cap => cap_holds (cap s) = true
  | Some (Cli i) => exists c, clients s !! i = Some c /\ client_holds c = true
  end.

(** A generator past the test of line 160 and not yet past the copy. *)
Definition checked (c : client) : bool :=
  match c with
  | Stream G164 | Stream G165 => true
  | _ => false
  end.

Definition checked_inv (s : state) : Prop :=
  forall i c, clients s !! i = Some c -> checked c = true -> is_Some (frame s).

(** The actions that are not steps of capture_video. *)
Definition not_capture (a : action) : bool :=
  match a with
  | Run Cap => false
  | _ => true
  end.

(** The actions that are not of client [i]. *)
Definition not_of_client (i : nat) (a : action) : bool :=
  match a with
  | Run (Cli j) | Disconnect j => negb (Nat.eqb i j)
  | _ => true
  end.

(** The events client [i] records. *)
Definition of_client (i : nat) (e : event) : bool :=
  match e with
  | EvSnapshot j _ _ | EvSleep j _ | EvChunk j _ _ | EvResponse j _ => Nat.eqb i j
  | _ => false
  end.

End Program.

(** Case analysis on a step; the lock the threads in a critical section
    hold. *)
Ltac step_cases H :=
  unfold step, step_capture, step_stream, step_query in H;
  repeat case_match; simplify_eq.

Ltac lock_facts Hc Hi :=
  try (pose proof (Hc eq_refl));
  repeat match goal with
         | Hk : _ !! ?i = Some ?c |- _ =>
             lazymatch c with
             | Stream _ => idtac | Query _ => idtac
             end;
             lazymatch goal with
             | _ : _ = Some (Cli i) |- _ => fail
             | _ => pose proof (Hi _ _ Hk eq_refl)
             end
         end.

End Main.


(** ** pi_camera.py

    The frames are JPEG byte strings that picamera2's encoder thread hands
    to [StreamingOutput.write]; capture_frames_continuously waits on the
    condition, reads [output.frame] and stores it in the global under
    [frame_lock]. The [print] calls are not modelled. *)

Module PiCamera.

Definition FRAMERATE : Q := 24.

(** Lines 85-86 *)
Definition chunk (frame_to_send : bytes) : bytes :=
  (ascii_bytes "--frame" ++ CRLF) ++
  (ascii_bytes "Content-Type: image/jpeg" ++ CRLF ++ CRLF) ++
  frame_to_send ++ CRLF.

(** Line 125 *)
Definition mimetype : string := "multipart/x-mixed-replace; boundary=frame".

(** [b'--frame\r\nContent-Type: image/jpeg\r\n\r\n'] *)
Definition chunk_head : bytes :=
  ascii_bytes "--frame" ++ CRLF ++
  ascii_bytes "Content-Type: image/jpeg" ++ CRLF ++ CRLF.

Inductive tid :=
| Enc
| Cap
| Cli (i : nat).

(** [StreamingOutput.write(buf)], run by the encoder thread for each frame *)
Inductive enc_pc :=
| EIdle                  (* between two calls *)
| W29 (buf : bytes)      (* with self.condition: (acquire) *)
| W30 (buf : bytes)      (* self.frame = buf *)
| W31                    (* self.condition.notify_all() *)
| W31x.                  (* leaving the with block *)

(** capture_frames_continuously *)
Inductive cap_pc :=
| L40                                  (* lines 40-53: configure, start recording *)
| L57                                  (* with output.condition: (acquire) *)
| L58                                  (* output.condition.wait(): release *)
| L58w                                 (* ... waiting for a notify *)
| L58n                                 (* ... notified: reacquire *)
| L59                                  (* frame_data = output.frame *)
| L59x (frame_data : option bytes)     (* leaving the with block *)
| L60 (frame_data : option bytes)      (* with frame_lock: (acquire) *)
| L61 (frame_data : option bytes)      (* latest_frame_buffer = frame_data *)
| L61x (frame_data : option bytes)     (* leaving the with block *)
| CapFailed.                           (* line 69: the setup raised *)

(** generate_camera_stream *)
Inductive gen_pc :=
| G75                                  (* entering the generator *)
| G78                                  (* with frame_lock: (acquire) *)
| G79                                  (* frame_to_send = latest_frame_buffer *)
| G79x (frame_to_send : option bytes)  (* leaving the with block *)
| G81 (frame_to_send : option bytes)   (* if frame_to_send is None *)
| G82                                  (* time.sleep(0.01); continue *)
| G85 (frame_to_send : bytes)          (* yield *)
| GYield                               (* suspended at the yield *)
| G87                                  (* time.sleep(1/FRAMERATE * 0.8) *)
| GClosed.                             (* GeneratorExit at the yield *)

(** The camera: whether the setup of lines 41-53 succeeds, and the JPEG
    frames the encoder still delivers. *)
Record Camera := {
  starts : bool;
  encoded : list bytes
}.

Record state := State {
  out_frame : option bytes;             (* output.frame *)
  out_condition : option tid;           (* holder of output.condition *)
  latest_frame_buffer : option bytes;   (* the global *)
  frame_lock : option tid;              (* the global lock and its holder *)
  camera : Camera;
  recording : bool;                     (* start_recording has been called *)
  enc : enc_pc;
  cap : cap_pc;
  clients : list gen_pc
}.

Definition init (c : Camera) : state :=
  {| out_frame := None; out_condition := None;
     latest_frame_buffer := None; frame_lock := None;
     camera := c; recording := false;
     enc := EIdle; cap := L40; clients := [] |}.

Inductive event :=
| EvPublish (frame_data : option bytes)
| EvSnapshot (i : nat) (f : option bytes)
| EvSleep (i : nat) (seconds : Q)
| EvChunk (i : nat) (f : bytes) (data : bytes).

Definition set_out_frame (f : option bytes) (s : state) : state :=
  {| out_frame := f; out_condition := out_condition s;
     latest_frame_buffer := latest_frame_buffer s; frame_lock := frame_lock s;
     camera := camera s; recording := recording s;
     enc := enc s; cap := cap s; clients := clients s |}.
Definition set_out_condition (l : option tid) (s : state) : state :=
  {| out_frame := out_frame s; out_condition := l;
     latest_frame_buffer := latest_frame_buffer s; frame_lock := frame_lock s;
     camera := camera s; recording := recording s;
     enc := enc s; cap := cap s; clients := clients s |}.
Definition set_latest (f : option bytes) (s : state) : state :=
  {| out_frame := out_frame s; out_condition := out_condition s;
     latest_frame_buffer := f; frame_lock := frame_lock s;
     camera := camera s; recording := recording s;
     enc := enc s; cap := cap s; clients := clients s |}.
Definition set_frame_lock (l : option tid) (s : state) : state :=
  {| out_frame := out_frame s; out_condition := out_condition s;
     latest_frame_buffer := latest_frame_buffer s; frame_lock := l;
     camera := camera s; recording := recording s;
     enc := enc s; cap := cap s; clients := clients s |}.
Definition set_encoded (fs : list bytes) (s : state) : state :=
  {| out_frame := out_frame s; out_condition := out_condition s;
     latest_frame_buffer := latest_frame_buffer s; frame_lock := frame_lock s;
     camera := {| starts := starts (camera s); encoded := fs |};
     recording := recording s;
     enc := enc s; cap := cap s; clients := clients s |}.
Definition set_recording (r : bool) (s : state) : state :=
  {| out_frame := out_frame s; out_condition := out_condition s;
     latest_frame_buffer := latest_frame_buffer s; frame_lock := frame_lock s;
     camera := camera s; recording := r;
     enc := enc s; cap := cap s; clients := clients s |}.
Definition set_enc (pc : enc_pc) (s : state) : state :=
  {| out_frame := out_frame s; out_condition := out_condition s;
     latest_frame_buffer := latest_frame_buffer s; frame_lock := frame_lock s;
     camera := camera s; recording := recording s;
     enc := pc; cap := cap s; clients := clients s |}.
Definition set_cap (pc : cap_pc) (s : state) : state :=
  {| out_frame := out_frame s; out_condition := out_condition s;
     latest_frame_buffer := latest_frame_buffer s; frame_lock := frame_lock s;
     camera := camera s; recording := recording s;
     enc := enc s; cap := pc; clients := clients s |}.
Definition set_client (i : nat) (pc : gen_pc) (s : state) : state :=
  {| out_frame := out_frame s; out_condition := out_condition s;
     latest_frame_buffer := latest_frame_buffer s; frame_lock := frame_lock s;
     camera := camera s; recording := recording s;
     enc := enc s; cap := cap s; clients := <[i := pc]> (clients s) |}.
Definition add_client (pc : gen_pc) (s : state) : state :=
  {| out_frame := out_frame s; out_condition := out_condition s;
     latest_frame_buffer := latest_frame_buffer s; frame_lock := frame_lock s;
     camera := camera s; recording := recording s;
     enc := enc s; cap := cap s; clients := clients s ++ [pc] |}.

(** [notify_all]: the capture thread, if it waits, is woken. *)
Definition notify_all (s : state) : state :=
  match cap s with
  | L58w => set_cap L58n s
  | _ => s
  end.

(** One step of the encoder thread inside [StreamingOutput.write]. *)
Definition step_encoder (s : state) : option (state * list event) :=
  match enc s with
  | EIdle =>
      if recording s then
        match encoded (camera s) with
        | [] => None
        | buf :: rest => Some (set_enc (W29 buf) (set_encoded rest s), [])
        end
      else None
  | W29 buf =>
      match out_condition s with
      | None => Some (set_enc (W30 buf) (set_out_condition (Some Enc) s), [])
      | Some _ => None
      end
  | W30 buf => Some (set_enc W31 (set_out_frame (Some buf) s), [])
  | W31 => Some (set_enc W31x (notify_all s), [])
  | W31x => Some (set_enc EIdle (set_out_condition None s), [])
  end.

(** One step of capture_frames_continuously. *)
Definition step_capture (s : state) : option (state * list event) :=
  match cap s with
  | L40 =>
      if starts (camera s) then Some (set_cap L57 (set_recording true s), [])
      else Some (set_cap CapFailed s, [])
  | L57 =>
      match out_condition s with
      | None => Some (set_cap L58 (set_out_condition (Some Cap) s), [])
      | Some _ => None
      end
  | L58 => Some (set_cap L58w (set_out_condition None s), [])
  | L58w => None
  | L58n =>
      match out_condition s with
      | None => Some (set_cap L59 (set_out_condition (Some Cap) s), [])
      | Some _ => None
      end
  | L59 => Some (set_cap (L59x (out_frame s)) s, [])
  | L59x fd => Some (set_cap (L60 fd) (set_out_condition None s), [])
  | L60 fd =>
      match frame_lock s with
      | None => Some (set_cap (L61 fd) (set_frame_lock (Some Cap) s), [])
      | Some _ => None
      end
  | L61 fd => Some (set_cap (L61x fd) (set_latest fd s), [])
  | L61x fd => Some (set_cap L57 (set_frame_lock None s), [EvPublish fd])
  | CapFailed => None
  end.

(** One step of the generator of client [i]. *)
Definition step_stream (s : state) (i : nat) (pc : gen_pc)
    : option (state * list event) :=
  match pc with
  | G75 => Some (set_client i G78 s, [])
  | G78 =>
      match frame_lock s with
      | None => Some (set_client i G79 (set_frame_lock (Some (Cli i)) s), [])
      | Some _ => None
      end
  | G79 =>
      Some (set_client i (G79x (latest_frame_buffer s)) s,
            [EvSnapshot i (latest_frame_buffer s)])
  | G79x f => Some (set_client i (G81 f) (set_frame_lock None s), [])
  | G81 None => Some (set_client i G82 s, [])
  | G81 (Some f) => Some (set_client i (G85 f) s, [])
  | G82 => Some (set_client i G78 s, [EvSleep i 0.01%Q])
  | G85 f => Some (set_client i GYield s, [EvChunk i f (chunk f)])
  | GYield => Some (set_client i G87 s, [])
  | G87 => Some (set_client i G78 s, [EvSleep i (1 / FRAMERATE * 0.8)%Q])
  | GClosed => None
  end.

Inductive action :=
| Run (t : tid)          (* let a thread take its next step *)
| GetVideoFeed           (* a request for /video_feed arrives *)
| Disconnect (i : nat).  (* the server closes generator [i] *)

Definition step (s : state) (a : action) : option (state * list event) :=
  match a with
  | Run Enc => step_encoder s
  | Run Cap => step_capture s
  | Run (Cli i) =>
      match clients s !! i with
      | Some pc => step_stream s i pc
      | None => None
      end
  | GetVideoFeed => Some (add_client G75 s, [])
  | Disconnect i =>
      match clients s !! i with
      | Some GYield => Some (set_client i GClosed s, [])
      | _ => None
      end
  end.

Fixpoint exec (s : state) (sched : list action) : option (state * list event) :=
  match sched with
  | [] => Some (s, [])
  | a :: rest =>
      match step s a with
      | None => None
      | Some (s1, evs) =>
          match exec s1 rest with
          | None => None
          | Some (s2, tr) => Some (s2, evs ++ tr)
          end
      end
  end.

Inductive reach (c : Camera) : state -> list event -> Prop :=
| reach_init : reach c (init c) []
| reach_step s tr a s' evs :
    reach c s tr -> step s a = Some (s', evs) -> reach c s' (tr ++ evs).

(** What the capture thread has stored, oldest first. *)
Fixpoint publishes (tr : list event) : list (option bytes) :=
  match tr with
  | [] => []
  | EvPublish fd :: rest => fd :: publishes rest
  | _ :: rest => publishes rest
  end.

(** What the global holds after the publishes of a trace. *)
Definition published (tr : list event) : option bytes :=
  match last (publishes tr) with
  | None => None
  | Some fd => fd
  end.

Fixpoint emitted (i : nat) (tr : list event) : list bytes :=
  match tr with
  | [] => []
  | EvChunk j f _ :: rest =>
      if decide (j = i) then f :: emitted i rest else emitted i rest
  | _ :: rest => emitted i rest
  end.

(** Inside [with frame_lock:] *)
Definition cap_locked (pc : cap_pc) : bool :=
  match pc with
  | L61 _ | L61x _ => true
  | _ => false
  end.

Definition client_locked (pc : gen_pc) : bool :=
  match pc with
  | G79 | G79x _ => true
  | _ => false
  end.

(** The local [frame_data], where it is live. *)
Definition pending (pc : cap_pc) : option (option bytes) :=
  match pc with
  | L59x fd | L60 fd | L61 fd | L61x fd => Some fd
  | _ => None
  end.

(** [write] has stored a frame in [output.frame]: it is past line 30, or
    the capture thread has been notified. *)
Definition written (s : state) : bool :=
  match enc s, cap s with
  | W31, _ | W31x, _ | _, L58n | _, L59 => true
  | _, _ => false
  end.

Definition store_inv (s : state) (tr : list event) : Prop :=
  match cap s with
  | L61x fd => latest_frame_buffer s = fd
  | _ => latest_frame_buffer s = published tr
  end.

Record inv (s : state) (tr : list event) : Prop := {
  inv_cap : cap_locked (cap s) = true -> frame_lock s = Some Cap;
  inv_cli : forall i pc, clients s !! i = Some pc ->
            client_locked pc = true -> frame_lock s = Some (Cli i);
  inv_store : store_inv s tr;
  inv_written : written s = true -> is_Some (out_frame s);
  inv_pending : forall fd, pending (cap s) = Some fd -> is_Some fd;
  inv_published : Forall is_Some (publishes tr)
}.

(** The frame generator [i] has read and not yet emitted. *)
Definition held (i : nat) (s : state) : option bytes :=
  match clients s !! i with
  | Some (G79x f) | Some (G81 f) => f
  | Some (G85 f) => Some f
  | _ => None
  end.

Definition order_inv (i : nat) (s : state) (tr : list event) : Prop :=
  exists idxs : list nat,
    Forall2 (fun k g => publishes tr !! k = Some (Some g)) idxs (emitted i tr) /\
    nondecreasing idxs /\
    (forall f, held i s = Some f ->
       exists m, publishes tr !! m = Some (Some f) /\
                 Forall (fun k => k <= m) idxs).

(** *** The condition and the frames of the encoder *)









(** The setup of lines 41-53 has failed, or has not run yet on a camera
    on which it fails. *)
Definition not_started (s : state) : Prop :=
  starts (camera s) = false /\ recording s = false /\ enc s = EIdle /\
  out_frame s = None /\ latest_frame_buffer s = None /\
  (cap s = L40 \/ cap s = CapFailed).

(** Where the generators can be while nothing is published. *)
Definition pi_early (s : state) : Prop :=
  forall i pc, clients s !! i = Some pc ->
    match pc with
    | G79x f | G81 f => f = None
    | G85 _ | GYield | G87 | GClosed => False
    | _ => True
    end.

(** Case analysis on a step; the locks the threads in a critical section hold. *)
Ltac step_cases H :=
  unfold step, step_encoder, step_capture, step_stream, notify_all in H;
  repeat case_match; simplify_eq.

Ltac lock_facts Hc Hi :=
  try (pose proof (Hc eq_refl));
  repeat match goal with
         | Hk : _ !! ?i = Some ?c |- _ =>
             lazymatch goal with
             | _ : _ = Some (Cli i) |- _ => fail
             | _ => pose proof (Hi _ _ Hk eq_refl)
             end
         end.

End PiCamera.

(** ** Test doubles and concrete runs

    Integer-valued numbers stand for the floats, a list of labels (the
    name of the picture, then what was drawn on it) for an image, and a
    detector that knows three pictures for the model. *)

Module Fake.
Import Main.

Definition decimal (z : Z) : string := NilZero.string_of_int (Z.to_int z).

#[local] Instance fake_float : PyFloat := {|
  num := Z; fadd := Z.add; fsub := Z.sub; fdiv := Z.div; fle := Z.leb;
  of_int := fun z => z; py_int := Some;
  float_repr := fun z => decimal z +:+ ".0";
  format_2f := fun z => decimal z +:+ ".00";
  json_escape := fun s => s
|}.

(** [imencode] raises on the picture "corrupt", reports failure with two
    bytes written on the picture "truncated", and otherwise returns the
    labels as the encoding. *)
#[local] Instance fake_cv : OpenCV := {|
  Image := list string;
  rectangle := fun img _ _ => img ++ ["box"];
  putText := fun img label _ => img ++ [label];
  imencode_jpg := fun img =>
    match img with
    | name :: _ =>
        if String.eqb name "corrupt" then EncRaised
        else if String.eqb name "truncated"
             then EncReturned false [Byte.xff; Byte.xd8]
             else EncReturned true (ascii_bytes (String.concat "+" img))
    | [] => EncRaised
    end
|}.

Definition cat_box : Box :=
  {| xyxy := (10, 20, 30, 60)%Z; conf := 1%Z; cls := 15%Z |}.

(** The model raises on the picture "noise", finds one cat in the picture
    "cat", and nothing elsewhere. *)
#[local] Instance fake_model : Detector := {|
  model := fun img =>
    match img with
    | [name] =>
        if String.eqb name "noise" then InferRaised
        else if String.eqb name "cat"
             then InferReturned {| boxes := [cat_box];
                                   names := {[ 15%Z := "cat" ]} |}
             else InferReturned {| boxes := []; names := ∅ |}
    | _ => InferReturned {| boxes := []; names := ∅ |}
    end
|}.

Definition state_of (r : option (state * list event)) (dflt : state) : state :=
  match r with
  | Some (s, _) => s
  | None => dflt
  end.

Definition trace_of (r : option (state * list event)) : list event :=
  match r with
  | Some (_, tr) => tr
  | None => []
  end.

(** A camera that delivers a cat, then a wall. A handler is served before
    the first publish, a generator sleeps once and then emits the cat, and
    a second handler is served after the publish. *)
Definition demo_device : Device := {| opens := true; feed := [["cat"]; ["wall"]] |}.

Definition demo_sched : list action :=
  [ Run Cap; GetDetections; Run (Cli 0); Run (Cli 0); Run (Cli 0);
    GetVideoFeed; Run (Cli 1);
    Run Cap; Run Cap; Run Cap; Run Cap; Run Cap;
    Run (Cli 1); Run (Cli 1); Run (Cli 1); Run (Cli 1); Run (Cli 1); Run (Cli 1);
    GetDetections; Run (Cli 2); Run (Cli 2); Run (Cli 2) ].

Definition demo_state : state :=
  Eval vm_compute in state_of (exec (init demo_device) demo_sched) (init demo_device).

Definition demo_trace : list event :=
  Eval vm_compute in trace_of (exec (init demo_device) demo_sched).

Definition cat_frame : Image := ["cat"; "box"; "cat: 1.00"].

Definition cat_detections : list Detection :=
  [ {| bbox := [10; 20; 30; 60]%Z; confidence := 1%Z; class_id := 15;
       class_name := "cat"; center_x := 20%Z; center_y := 40%Z |} ].

(** The trace up to the snapshot of the generator, and after it. *)
Definition demo_before : list event := Eval vm_compute in take 4 demo_trace.
Definition demo_after : list event := Eval vm_compute in drop 5 demo_trace.

Definition demo_body : string := Eval vm_compute in dumps_detections cat_detections.




(** A camera whose first frame makes the model raise; the state in which
    capture_video is about to read it. *)
Definition noise_device : Device := {| opens := true; feed := [["noise"]; ["cat"]] |}.

Definition noise_state : state :=
  Eval vm_compute in state_of (exec (init noise_device) [Run Cap]) (init noise_device).

Definition noise_raised : state :=
  Eval vm_compute in state_of (exec noise_state [Run Cap]) noise_state.











(** pi_camera.py: the encoder delivers one frame while the capture thread
    waits; the thread publishes it and a generator emits it. *)
Definition jpeg1 : bytes := [Byte.xff; Byte.xd8; Byte.x01; Byte.xff; Byte.xd9].

Definition pi_device : PiCamera.Camera :=
  {| PiCamera.starts := true; PiCamera.encoded := [jpeg1] |}.

Definition pi_sched : list PiCamera.action :=
  [ PiCamera.Run PiCamera.Cap; PiCamera.GetVideoFeed;
    PiCamera.Run PiCamera.Cap; PiCamera.Run PiCamera.Cap;
    PiCamera.Run PiCamera.Enc; PiCamera.Run PiCamera.Enc;
    PiCamera.Run PiCamera.Enc; PiCamera.Run PiCamera.Enc;
    PiCamera.Run PiCamera.Enc;
    PiCamera.Run PiCamera.Cap; PiCamera.Run PiCamera.Cap;
    PiCamera.Run PiCamera.Cap; PiCamera.Run PiCamera.Cap;
    PiCamera.Run PiCamera.Cap; PiCamera.Run PiCamera.Cap;
    PiCamera.Run (PiCamera.Cli 0); PiCamera.Run (PiCamera.Cli 0);
    PiCamera.Run (PiCamera.Cli 0); PiCamera.Run (PiCamera.Cli 0);
    PiCamera.Run (PiCamera.Cli 0); PiCamera.Run (PiCamera.Cli 0) ].

Definition pi_state : PiCamera.state :=
  Eval vm_compute in
    match PiCamera.exec (PiCamera.init pi_device) pi_sched with
    | Some (s, _) => s
    | None => PiCamera.init pi_device
    end.

Definition pi_trace : list PiCamera.event :=
  Eval vm_compute in
    match PiCamera.exec (PiCamera.init pi_device) pi_sched with
    | Some (_, tr) => tr
    | None => []
    end.

End Fake.

(** ** More concrete runs *)

Module Fake2.
Import Main Fake.

#[local] Existing Instances fake_float fake_cv fake_model.

(** The demo run until capture_video has the lock. *)
Definition held_sched : list action := take 9 demo_sched.

Definition held_state : state :=
  Eval vm_compute in state_of (exec (init demo_device) held_sched) (init demo_device).

Definition held_trace : list event :=
  Eval vm_compute in trace_of (exec (init demo_device) held_sched).

(** The demo run until the generator is about to copy the frame. *)
Definition copy_sched : list action := take 15 demo_sched.

Definition copy_state : state :=
  Eval vm_compute in state_of (exec (init demo_device) copy_sched) (init demo_device).

Definition copy_trace : list event :=
  Eval vm_compute in trace_of (exec (init demo_device) copy_sched).

(** The demo run, then capture_video until the camera has no frame left. *)
Definition done_sched : list action := demo_sched ++ replicate 6 (Run Cap).

Definition done_state : state :=
  Eval vm_compute in state_of (exec (init demo_device) done_sched) (init demo_device).

Definition done_trace : list event :=
  Eval vm_compute in trace_of (exec (init demo_device) done_sched).

(** After the demo run: clients only. *)
Definition clients_only : list action :=
  [ GetVideoFeed; Run (Cli 3); GetDetections; Run (Cli 4); Run (Cli 4);
    Run (Cli 4); Disconnect 1 ].

Definition clients_only_state : state :=
  Eval vm_compute in state_of (exec demo_state clients_only) demo_state.

Definition clients_only_trace : list event :=
  Eval vm_compute in trace_of (exec demo_state clients_only).

(** After the demo run: everything but the generator of client 1. *)
Definition others : list action :=
  [ Run Cap; GetDetections; Run (Cli 3); Run (Cli 3); Run (Cli 3); Run Cap;
    Run Cap; GetVideoFeed; Run (Cli 4); Run Cap; Run Cap ].

Definition others_state : state :=
  Eval vm_compute in state_of (exec demo_state others) demo_state.

Definition others_trace : list event :=
  Eval vm_compute in trace_of (exec demo_state others).

(** pi_camera.py: the demo run before the publish, then a generator that
    reads [None]. *)
Definition pi_early_sched : list PiCamera.action :=
  take 9 pi_sched ++ replicate 4 (PiCamera.Run (PiCamera.Cli 0)).

Definition pi_early_state : PiCamera.state :=
  Eval vm_compute in
    match PiCamera.exec (PiCamera.init pi_device) pi_early_sched with
    | Some (s, _) => s
    | None => PiCamera.init pi_device
    end.

Definition pi_early_trace : list PiCamera.event :=
  Eval vm_compute in
    match PiCamera.exec (PiCamera.init pi_device) pi_early_sched with
    | Some (_, tr) => tr
    | None => []
    end.

(** pi_camera.py: a camera whose setup raises. *)
Definition pi_broken : PiCamera.Camera :=
  {| PiCamera.starts := false; PiCamera.encoded := [jpeg1] |}.

Definition pi_broken_sched : list PiCamera.action :=
  [ PiCamera.GetVideoFeed; PiCamera.Run PiCamera.Cap;
    PiCamera.Run (PiCamera.Cli 0); PiCamera.Run (PiCamera.Cli 0);
    PiCamera.Run (PiCamera.Cli 0); PiCamera.Run (PiCamera.Cli 0);
    PiCamera.Run (PiCamera.Cli 0); PiCamera.Run (PiCamera.Cli 0) ].

Definition pi_broken_state : PiCamera.state :=
  Eval vm_compute in
    match PiCamera.exec (PiCamera.init pi_broken) pi_broken_sched with
    | Some (s, _) => s
    | None => PiCamera.init pi_broken
    end.

Definition pi_broken_trace : list PiCamera.event :=
  Eval vm_compute in
    match PiCamera.exec (PiCamera.init pi_broken) pi_broken_sched with
    | Some (_, tr) => tr
    | None => []
    end.

End Fake2.

(** A detector whose result names class 15 only and reports a box of
    class 16 in the picture "dog". *)
Module FakeDog.
Import Main Fake.

#[local] Existing Instances fake_float fake_cv.

Definition dog_box : Box :=
  {| xyxy := (1, 2, 3, 4)%Z; conf := 1%Z; cls := 16%Z |}.

Definition dog_result : Result :=
  {| boxes := [cat_box; dog_box]; names := {[ 15%Z := "cat" ]} |}.

#[local] Instance dog_model : Detector := {|
  model := fun img => InferReturned dog_result
|}.

Definition dog_state : state :=
  {| frame := None; detections := []; lock := None;
     device := {| opens := true; feed := [["dog"]; ["cat"]] |};
     cap := L118; clients := [] |}.

End FakeDog.

(** ** Lists: proofs *)

Lemma lookup_snoc_new {A} (l : list A) (x : A) : (l ++ [x]) !! length l = Some x.
Proof. by apply list_lookup_middle. Qed.

Lemma insert_snoc_new {A} (l : list A) (x y : A) :
  <[length l := y]> (l ++ [x]) = l ++ [y].
Proof. rewrite insert_app_r_alt by done. rewrite Nat.sub_diag. done. Qed.



(** ** main.py: proofs *)

Module MainTheory.
Import Main.
Section Theory.
Context `{Detector}.

(** *** Basic facts *)

Lemma publishes_app tr1 tr2 :
  publishes (tr1 ++ tr2) = publishes tr1 ++ publishes tr2.
Proof.
  induction tr1 as [|e tr1 IH]; [done|].
  destruct e; simpl; rewrite ?IH; done.
Qed.

Lemma published_silent tr evs :
  publishes evs = [] -> published (tr ++ evs) = published tr.
Proof.
  intros Hq. unfold published. rewrite publishes_app, Hq, app_nil_r. done.
Qed.

Lemma published_publish tr img ds :
  published (tr ++ [EvPublish img ds]) = (Some img, ds).
Proof.
  unfold published. rewrite publishes_app. simpl. rewrite last_snoc. done.
Qed.


Lemma published_present tr :
  publishes tr <> [] ->
  exists img ds, last (publishes tr) = Some (img, ds) /\
                 published tr = (Some img, ds).
Proof.
  intros Hq. unfold published.
  destruct (last (publishes tr)) as [[img ds]|] eqn:Hl.
  - eauto.
  - apply last_None in Hl. done.
Qed.

(** A step records at most one event. *)
Lemma step_events s a s' evs :
  step s a = Some (s', evs) -> evs = [] \/ exists e, evs = [e].
Proof. intros Hs. step_cases Hs; eauto. Qed.

Lemma inv_init d : inv (init d) [].
Proof. split; simpl; try done. Qed.

Lemma inv_step s tr a s' evs :
  inv s tr -> step s a = Some (s', evs) -> inv s' (tr ++ evs).
Proof.
  intros [Hc Hi Hst] Hs. unfold store_inv in Hst.
  destruct s as [fr ds lk dev pc cls]; simpl in *.
  step_cases Hs; simpl in *; simplify_eq.
  all: split; unfold store_inv; simpl.
  all: try (intros j c' Hj Hh; try lookup_cases Hj; simpl in *; try done).
  all: rewrite ?published_publish, ?published_silent, ?app_nil_r by done.
  all: try done.
  all: try (intros _).
  all: try (lock_facts Hc Hi; try specialize (Hi _ _ Hj Hh); simplify_eq; done).
  all: destruct Hst; subst; done.
Qed.

Lemma reach_inv d s tr : reach d s tr -> inv s tr.
Proof.
  induction 1 as [|s tr a s' evs _ IH Hs]; [apply inv_init|].
  eapply inv_step; eauto.
Qed.

Lemma exec_reach d s tr sched s' tr' :
  reach d s tr -> exec s sched = Some (s', tr') -> reach d s' (tr ++ tr').
Proof.
  revert s tr tr'. induction sched as [|a rest IH]; intros s tr tr' Hr He.
  - simpl in He. simplify_eq. rewrite app_nil_r. done.
  - simpl in He. destruct (step s a) as [[s1 evs]|] eqn:Hs; [|done].
    destruct (exec s1 rest) as [[s2 tr2]|] eqn:He2; [|done].
    simplify_eq. rewrite app_assoc. eapply IH; [|done].
    econstructor; eauto.
Qed.

Lemma exec_init_reach d sched s tr :
  exec (init d) sched = Some (s, tr) -> reach d s tr.
Proof. intros He. apply (exec_reach d _ [] _ _ _ (reach_init d) He). Qed.

(** Every event of a trace was recorded by a step taken from a reachable
    state whose trace is what precedes the event. *)
Lemma reach_event d s tr :
  reach d s tr ->
  forall tr1 e tr2, tr = tr1 ++ e :: tr2 ->
  exists s1 a s2, reach d s1 tr1 /\ step s1 a = Some (s2, [e]).
Proof.
  induction 1 as [|s tr a s' evs Hr IH Hs]; intros tr1 e tr2 Heq.
  - destruct tr1; done.
  - destruct (step_events _ _ _ _ Hs) as [->|[e' ->]].
    + rewrite app_nil_r in Heq. eauto.
    + destruct tr2 as [|x tr2 _] using rev_ind.
      * apply app_inj_tail in Heq as [-> ->]. eauto.
      * rewrite app_comm_cons, app_assoc in Heq.
        apply app_inj_tail in Heq as [-> _]. eauto.
Qed.

(** *** Snapshots *)

(** A snapshot is taken by a client that holds the lock, and it sees the
    two globals as the last completed publish left them. *)
Lemma snapshot_step s tr a s2 i f ds :
  inv s tr -> step s a = Some (s2, [EvSnapshot i f ds]) ->
  a = Run (Cli i) /\ lock s = Some (Cli i) /\
  f = frame s /\ ds = detections s /\ (f, ds) = published tr.
Proof.
  intros [Hc Hi Hst] Hs. unfold store_inv in Hst.
  destruct s as [fr dets lk dev pc cls]; simpl in *.
  step_cases Hs; simpl in *; simplify_eq.
  all: lock_facts Hc Hi; simplify_eq; done.
Qed.

(** C1. Under every schedule of the capture thread and any number of
    clients, each snapshot (a read of the globals inside [with lock:])
    sees either the initial pair, no frame and no detections, when no
    publish has completed, or the frame and the detections written by one
    and the same publish, the last completed one. *)
Theorem snapshot_of_one_publish d sched s tr :
  exec (init d) sched = Some (s, tr) ->
  forall tr1 i f ds tr2, tr = tr1 ++ EvSnapshot i f ds :: tr2 ->
  (publishes tr1 = [] /\ f = None /\ ds = []) \/
  (exists img, f = Some img /\ last (publishes tr1) = Some (img, ds)).
Proof.
  intros He tr1 i f ds tr2 Heq.
  apply exec_init_reach in He.
  destruct (reach_event _ _ _ He _ _ _ Heq) as (s1 & a & s2 & Hr & Hs).
  apply reach_inv in Hr.
  destruct (snapshot_step _ _ _ _ _ _ _ Hr Hs) as (_ & _ & _ & _ & Hp).
  unfold published in Hp.
  destruct (last (publishes tr1)) as [[img ds']|] eqn:Hl; simplify_eq.
  - right. eauto.
  - left. apply last_None in Hl. done.
Qed.



Lemma response_step s a s2 i body :
  step s a = Some (s2, [EvResponse i body]) ->
  clients s !! i = Some (Query (Q185x body)).
Proof. intros Hs. step_cases Hs. done. Qed.

Lemma chunk_step s a s2 i img data :
  step s a = Some (s2, [EvChunk i img data]) ->
  clients s !! i = Some (Stream (G167 img)) /\
  exists retval buffer,
    imencode_jpg img = EncReturned retval buffer /\ data = chunk buffer.
Proof. intros Hs. step_cases Hs. eauto. Qed.












(** *** The frame, once present, stays *)

Lemma step_frame s a s' evs :
  step s a = Some (s', evs) -> is_Some (frame s) -> is_Some (frame s').
Proof.
  intros Hs Hf. destruct s as [fr ds lk dev pc cls].
  step_cases Hs; simpl in *; done.
Qed.

Lemma exec_frame s sched s' tr :
  exec s sched = Some (s', tr) -> is_Some (frame s) -> is_Some (frame s').
Proof.
  revert s tr. induction sched as [|a rest IH]; intros s tr He Hf; simpl in He.
  - by simplify_eq.
  - destruct (step s a) as [[s1 evs]|] eqn:Hs; [|done].
    destruct (exec s1 rest) as [[s2 tr2]|] eqn:He2; [|done].
    simplify_eq. eauto using step_frame.
Qed.

Lemma reach_frame d s tr :
  reach d s tr -> publishes tr <> [] -> is_Some (frame s).
Proof.
  intros Hr Hp. destruct (reach_inv _ _ _ Hr) as [_ _ Hst].
  destruct (published_present _ Hp) as (img & ds & _ & Hq).
  unfold store_inv in Hst. rewrite Hq in Hst.
  destruct (cap s); destruct_and?; simplify_eq; eauto.
Qed.

(** main.py part of C9. *)
Lemma present_after_publish d sched s tr :
  exec (init d) sched = Some (s, tr) ->
  (forall tr1 i f ds tr2,
     tr = tr1 ++ EvSnapshot i f ds :: tr2 -> publishes tr1 <> [] -> is_Some f) /\
  (publishes tr <> [] -> is_Some (frame s)) /\
  (forall sched' s' tr',
     exec s sched' = Some (s', tr') -> is_Some (frame s) -> is_Some (frame s')).
Proof.
  intros He. apply exec_init_reach in He. split_and!.
  - intros tr1 i f ds tr2 Heq Hp.
    destruct (reach_event _ _ _ He _ _ _ Heq) as (s1 & a & s2 & Hr & Hs).
    apply (snapshot_step _ tr1) in Hs as (_ & _ & -> & _ & _);
      [|by eapply reach_inv].
    eauto using reach_frame.
  - eauto using reach_frame.
  - eauto using exec_frame.
Qed.

Lemma step_ended s a s' evs :
  cap_ended (cap s) = true -> step s a = Some (s', evs) ->
  cap s' = cap s /\ publishes evs = [] /\
  frame s' = frame s /\ detections s' = detections s.
Proof.
  intros Hd Hs. destruct s as [fr ds lk dev pc cls]; simpl in *.
  step_cases Hs; simpl in *; simplify_eq; done.
Qed.

Lemma exec_ended s sched s' tr :
  cap_ended (cap s) = true -> exec s sched = Some (s', tr) ->
  cap s' = cap s /\ publishes tr = [] /\
  frame s' = frame s /\ detections s' = detections s.
Proof.
  revert s tr. induction sched as [|a rest IH]; intros s tr Hd He; simpl in He.
  - by simplify_eq.
  - destruct (step s a) as [[s1 evs]|] eqn:Hs; [|done].
    destruct (exec s1 rest) as [[s2 tr2]|] eqn:He2; [|done].
    simplify_eq.
    destruct (step_ended _ _ _ _ Hd Hs) as (Hc & Hp & Hf & Hds).
    rewrite <- Hc in Hd. destruct (IH _ _ Hd He2) as (Hc' & Hp' & Hf' & Hds').
    rewrite publishes_app, Hp, Hp'. split_and!; first [done|congruence].
Qed.

(** C3, as the code has it. If [model(img)] raises in an iteration of
    capture_video, nothing is published for that iteration and the
    exception ends the thread: the globals and the clients are as before,
    and whatever is scheduled afterwards, the thread stays ended, no
    publish follows, and the globals keep their values. *)
Theorem inference_failure_ends_capture s img rest :
  cap s = L118 -> feed (device s) = img :: rest -> model img = InferRaised ->
  exists s1,
    step s (Run Cap) = Some (s1, []) /\ cap s1 = CapRaised /\
    frame s1 = frame s /\ detections s1 = detections s /\
    lock s1 = lock s /\ clients s1 = clients s /\
    step s1 (Run Cap) = None /\
    forall sched s2 tr, exec s1 sched = Some (s2, tr) ->
      cap s2 = CapRaised /\ publishes tr = [] /\
      frame s2 = frame s /\ detections s2 = detections s.
Proof.
  intros Hpc Hfeed Hm.
  exists (set_cap CapRaised (set_feed rest s)). split_and!; try done.
  - simpl. unfold step_capture, process. rewrite Hpc, Hfeed, Hm. done.
  - intros sched s2 tr He. by apply exec_ended in He.
Qed.




Lemma for_body_describes nm img cur box img' cur' :
  for_body nm (img, cur) box = Some (img', cur') ->
  exists d, cur' = cur ++ [d] /\ describes nm box d.
Proof.
  unfold for_body, describes. destruct (xyxy box) as [[[x1 y1] x2] y2].
  intros Hb. repeat (apply bind_Some in Hb as (? & ? & Hb)). simplify_eq.
  eexists. split; [done|]. simpl. done.
Qed.

Lemma for_boxes_describes nm bs img cur img' cur' :
  for_boxes nm bs (img, cur) = Some (img', cur') ->
  exists new, cur' = cur ++ new /\ Forall2 (describes nm) bs new.
Proof.
  revert img cur. induction bs as [|box rest IH]; intros img cur Hf; simpl in Hf.
  - simplify_eq. exists []. rewrite app_nil_r. split; [done|constructor].
  - apply bind_Some in Hf as ([img1 cur1] & Hb & Hf).
    apply for_body_describes in Hb as (d & -> & Hd).
    apply IH in Hf as (new & -> & Hnew).
    exists (d :: new). rewrite <- app_assoc. split; [done|by constructor].
Qed.

(** Lines 122-148 produce one detection per box, in the detector's order. *)
Lemma process_describes img img' cur :
  process img = Some (img', cur) ->
  exists r, model img = InferReturned r /\
            Forall2 (describes (names r)) (boxes r) cur.
Proof.
  unfold process. destruct (model img) as [|r] eqn:Hm; [done|].
  intros Hf. apply for_boxes_describes in Hf as (new & -> & Hnew). eauto.
Qed.

Lemma describes_wf nm box d :
  in_unit (conf box) = true -> describes nm box d -> wf_detection d.
Proof.
  unfold describes, wf_detection. destruct (xyxy box) as [[[x1 y1] x2] y2].
  intros Hu (Hb & Hc & _ & _ & Hx & Hy).
  exists x1, y1, x2, y2. rewrite Hc. done.
Qed.

Lemma process_wf img img' cur :
  calibrated -> process img = Some (img', cur) -> Forall wf_detection cur.
Proof.
  intros Hcal Hp. apply process_describes in Hp as (r & Hm & Hd).
  assert (Hin : forall box, box ∈ boxes r -> in_unit (conf box) = true)
    by eauto.
  clear Hm. induction Hd as [|box d bs ds Hbd _ IH]; constructor.
  - eapply describes_wf; [|done]. apply Hin. by left.
  - apply IH. intros box' Hb. apply Hin. by right.
Qed.

Lemma served_step s a s' evs :
  calibrated -> served s -> step s a = Some (s', evs) -> served s'.
Proof.
  intros Hcal (Hd & Hp & Hq) Hs. unfold served.
  destruct s as [fr ds lk dev pc cls]; simpl in *.
  step_cases Hs; simpl in *; simplify_eq.
  all: split_and!; try done; eauto using process_wf.
  all: intros j body' Hj; try lookup_cases Hj; simplify_eq; eauto.
Qed.

Lemma reach_served d s tr : calibrated -> reach d s tr -> served s.
Proof.
  intros Hcal. induction 1 as [|s tr a s' evs Hr IH Hs].
  - split_and!; [constructor|constructor|]. intros i body Hl. done.
  - eauto using served_step.
Qed.

(** C7. With a detector whose confidences lie in [0,1], under every
    schedule every response of GET /detections is the JSON array of
    objects with the keys bbox (four floats), confidence, class_id (an
    integer), class_name (a string), center_x and center_y, and in each
    of them the confidence lies in [0,1], center_x is (x1 + x2) / 2 and
    center_y is (y1 + y2) / 2 for the box [x1, y1, x2, y2]. *)
Theorem detections_response d sched s tr :
  calibrated -> exec (init d) sched = Some (s, tr) ->
  forall i body, EvResponse i body ∈ tr ->
  exists ds : list Detection,
    body = json_dumps (JArr (map (fun det =>
             JObj [ ("bbox", JArr (map JFloat (bbox det)));
                    ("confidence", JFloat (confidence det));
                    ("class_id", JInt (class_id det));
                    ("class_name", JStr (class_name det));
                    ("center_x", JFloat (center_x det));
                    ("center_y", JFloat (center_y det)) ]) ds)) /\
    Forall (fun det =>
      exists x1 y1 x2 y2,
        bbox det = [x1; y1; x2; y2] /\
        center_x det = fdiv (fadd x1 x2) (of_int 2) /\
        center_y det = fdiv (fadd y1 y2) (of_int 2) /\
        fle (of_int 0) (confidence det) && fle (confidence det) (of_int 1) = true)
      ds.
Proof.
  intros Hcal He i body Hin. apply exec_init_reach in He.
  apply list_elem_of_split in Hin as (tr1 & tr2 & Heq).
  destruct (reach_event _ _ _ He _ _ _ Heq) as (s1 & a & s2 & Hr & Hs).
  apply response_step in Hs.
  destruct (reach_served _ _ _ Hcal Hr) as (_ & _ & Hq).
  destruct (Hq _ _ Hs) as (ds & -> & Hwf). exists ds. split; done.
Qed.

Lemma chunk_spelled buffer : chunk buffer = chunk_head ++ buffer ++ CRLF.
Proof. reflexivity. Qed.

(** main.py part of C4. *)
Lemma chunk_format d sched s tr i img data :
  exec (init d) sched = Some (s, tr) -> EvChunk i img data ∈ tr ->
  exists retval buffer,
    imencode_jpg img = EncReturned retval buffer /\
    data = chunk_head ++ buffer ++ CRLF.
Proof.
  intros He Hin. apply exec_init_reach in He.
  apply list_elem_of_split in Hin as (tr1 & tr2 & Heq).
  destruct (reach_event _ _ _ He _ _ _ Heq) as (s1 & a & s2 & Hr & Hs).
  apply chunk_step in Hs as (_ & retval & buffer & Henc & ->). eauto.
Qed.

Lemma step_gen_ended i c s a s' evs :
  clients s !! i = Some c -> gen_ended c = true ->
  step s a = Some (s', evs) ->
  clients s' !! i = Some c /\ forall img data, EvChunk i img data ∉ evs.
Proof.
  intros Hl Hg Hs. destruct s as [fr ds lk dev pc cls]; simpl in *.
  step_cases Hs; simpl in *; simplify_eq.
  all: split;
    [|intros img' data' Hin;
      repeat (apply elem_of_cons in Hin as [Hin|Hin]; [by simplify_eq|]);
      by apply elem_of_nil in Hin].
  all: try done.
  all: try (by apply lookup_app_l_Some).
  all: match goal with
       | |- <[?j := _]> _ !! _ = _ =>
           destruct (decide (j = i)) as [->|Hne];
           [simplify_eq; done|by rewrite list_lookup_insert_ne]
       end.
Qed.

Lemma exec_gen_ended i c s sched s' tr :
  clients s !! i = Some c -> gen_ended c = true ->
  exec s sched = Some (s', tr) ->
  clients s' !! i = Some c /\ forall img data, EvChunk i img data ∉ tr.
Proof.
  revert s tr. induction sched as [|a rest IH]; intros s tr Hl Hg He; simpl in He.
  - simplify_eq. split; [done|]. intros img data Hin. by apply elem_of_nil in Hin.
  - destruct (step s a) as [[s1 evs]|] eqn:Hs; [|done].
    destruct (exec s1 rest) as [[s2 tr2]|] eqn:He2; [|done].
    simplify_eq.
    destruct (step_gen_ended _ _ _ _ _ _ Hl Hg Hs) as [Hl1 Hn1].
    destruct (IH _ _ Hl1 Hg He2) as [Hl2 Hn2].
    split; [done|]. intros img data Hin.
    apply elem_of_app in Hin as [Hin|Hin]; [by eapply Hn1|by eapply Hn2].
Qed.


(** *** An iteration without detections *)

(** The run of a client that has just connected. *)
Ltac run_new_client :=
  repeat (simpl; unfold set_client, set_lock, add_client; simpl;
          rewrite ?lookup_snoc_new, ?insert_snoc_new).

(** C10. An iteration of capture_video whose frame the detector returns
    no box for publishes that frame, unannotated, with the empty list;
    a request for /detections made then is answered with the empty
    array, and a request for /video_feed made then emits the chunk of
    that frame. *)
Theorem publish_without_detections s img rest r :
  cap s = L118 -> lock s = None -> feed (device s) = img :: rest ->
  model img = InferReturned r -> boxes r = [] ->
  let n := length (clients s) in
  exists s1,
    exec s [Run Cap; Run Cap; Run Cap; Run Cap; Run Cap]
      = Some (s1, [EvPublish img []]) /\
    frame s1 = Some img /\ detections s1 = [] /\
    cap s1 = L118 /\ lock s1 = None /\ clients s1 = clients s /\
    (exists s2,
       exec s1 [GetDetections; Run (Cli n); Run (Cli n); Run (Cli n)]
         = Some (s2, [EvSnapshot n (Some img) []; EvResponse n "[]"])) /\
    (forall retval buffer, imencode_jpg img = EncReturned retval buffer ->
       exists s2,
         exec s1 [GetVideoFeed; Run (Cli n); Run (Cli n); Run (Cli n);
                  Run (Cli n); Run (Cli n)]
           = Some (s2, [EvSnapshot n (Some img) []; EvChunk n img (chunk buffer)])).
Proof.
  intros Hpc Hlk Hfeed Hm Hb n. subst n.
  destruct s as [fr ds lk [op fd] pc cls]; simpl in *. subst.
  eexists. split.
  { unfold step_capture at 1. simpl. unfold process. rewrite Hm, Hb. simpl.
    reflexivity. }
  simpl. split_and!; try done.
  - eexists. run_new_client. reflexivity.
  - intros retval buffer Henc. eexists. run_new_client. rewrite Henc.
    run_new_client. reflexivity.
Qed.

End Theory.
End MainTheory.

(** ** main.py: further properties *)

Module MainMore.
Import Main MainTheory.
Section More.
Context `{Detector}.

Lemma prepend_app l1 l2 r : prepend (l1 ++ l2) r = prepend l1 (prepend l2 r).
Proof. unfold prepend. simpl. by rewrite app_assoc. Qed.

Lemma capture_all_cons img rest r :
  process img = Some r -> capture_all (img :: rest) = prepend [r] (capture_all rest).
Proof. intros Hp. simpl. rewrite Hp. by destruct (capture_all rest). Qed.

Lemma camera_step d s tr a s' evs :
  camera_inv d s tr -> step s a = Some (s', evs) -> camera_inv d s' (tr ++ evs).
Proof.
  intros Hc Hs. unfold camera_inv in *.
  destruct s as [fr ds lk [op fd] pc cls]; simpl in *.
  step_cases Hs; simpl in *; simplify_eq.
  all: rewrite ?publishes_app; simpl; rewrite ?app_nil_r in *; try done.
  all: try lazymatch type of Hc with
           | _ /\ _ =>
               destruct Hc as [Hf Hp];
               first [ done
                     | by rewrite <- Hf, Hp; unfold prepend;
                          destruct (capture_all _) ]
           end.
  all: try match goal with
           | Hp : process _ = Some _ |- _ =>
               by rewrite Hc, (capture_all_cons _ _ _ Hp), prepend_app
           end.
  all: rewrite Hc; simpl;
       repeat match goal with Hp : process _ = _ |- _ => rewrite Hp end;
       unfold prepend; simpl; by rewrite ?app_nil_r.
Qed.

Lemma reach_camera d s tr : reach d s tr -> camera_inv d s tr.
Proof.
  induction 1 as [|s tr a s' evs Hr IH Hs]; [done|].
  eauto using camera_step.
Qed.

Lemma publishes_in_camera_order_aux d sched s tr :
  exec (init d) sched = Some (s, tr) ->
  exists k, (capture_all (feed d)).1 = publishes tr ++ k.
Proof.
  intros He. apply exec_init_reach in He. apply reach_camera in He.
  unfold camera_inv in He.
  destruct (cap s);
    lazymatch type of He with
    | _ /\ _ => destruct He as [_ Hp]; rewrite Hp; by eexists
    | publishes _ = [] => rewrite He; by eexists
    | _ => rewrite He; simpl; rewrite <- ?app_assoc;
           first [by eexists | by exists []; rewrite app_nil_r]
    end.
Qed.

(** X1. capture_video among any clients publishes what its loop, run on its
    own over the frames of the camera, publishes: always a prefix of it,
    in the same order, and all of it once the thread has ended, by the
    break of line 120 or by an exception. *)
Theorem publishes_in_camera_order d sched s tr :
  exec (init d) sched = Some (s, tr) ->
  publishes tr `prefix_of` (capture_all (feed d)).1 /\
  (cap s = CapReleased -> capture_all (feed d) = (publishes tr, true)) /\
  (cap s = CapRaised -> capture_all (feed d) = (publishes tr, false)).
Proof.
  intros He. apply exec_init_reach in He. apply reach_camera in He.
  unfold camera_inv in He. split_and!.
  - destruct (cap s);
      lazymatch type of He with
      | _ /\ _ => destruct He as [_ Hp]; rewrite Hp; apply prefix_nil
      | publishes _ = [] => rewrite He; apply prefix_nil
      | _ => rewrite He; simpl; rewrite <- ?app_assoc;
             first [reflexivity | by apply prefix_app_r]
      end.
  - intros Hc. by rewrite Hc in He.
  - intros Hc. by rewrite Hc in He.
Qed.

Lemma publishes_elem tr img ds :
  EvPublish img ds ∈ tr <-> (img, ds) ∈ publishes tr.
Proof.
  induction tr as [|e tr IH].
  - simpl. by rewrite !elem_of_nil.
  - destruct e; simpl; rewrite ?elem_of_cons, <- IH; intuition congruence.
Qed.

Lemma capture_all_elem imgs r :
  r ∈ (capture_all imgs).1 -> exists raw, raw ∈ imgs /\ process raw = Some r.
Proof.
  induction imgs as [|img rest IH]; simpl.
  - intros Hin. by apply elem_of_nil in Hin.
  - destruct (process img) as [r0|] eqn:Hp; simpl.
    + destruct (capture_all rest) as [ps ok]; simpl in *.
      intros [->|Hin]%elem_of_cons.
      * exists img. split; [by left|done].
      * destruct (IH Hin) as (raw & Hraw & Hpr). exists raw. split; [by right|done].
    + intros Hin. by apply elem_of_nil in Hin.
Qed.

(** X2. Every publish carries the outcome of lines 122-148 on one frame the
    camera delivered: the model returned a result for that frame, and the
    detections are one per box of the result, in the order of the boxes,
    each with the box's coordinates and confidence, the class id
    [int(cls)], the name the result gives that id and the midpoint of the
    box. *)
Theorem published_describes d sched s tr img ds :
  exec (init d) sched = Some (s, tr) -> EvPublish img ds ∈ tr ->
  exists raw r,
    raw ∈ feed d /\ process raw = Some (img, ds) /\
    model raw = InferReturned r /\
    Forall2 (describes (names r)) (boxes r) ds.
Proof.
  intros He Hin. apply publishes_elem in Hin.
  destruct (publishes_in_camera_order_aux d sched s tr He) as [k Hk].
  assert (Hel : (img, ds) ∈ (capture_all (feed d)).1).
  { rewrite Hk. apply elem_of_app. by left. }
  apply capture_all_elem in Hel as (raw & Hraw & Hp).
  destruct (process_describes _ _ _ Hp) as (r & Hm & Hd).
  exists raw, r. done.
Qed.

(** *** The lock *)

(** X3. At most one thread is inside [with lock:], and when the lock is free
    none is. *)
Theorem mutual_exclusion d sched s tr :
  exec (init d) sched = Some (s, tr) ->
  (cap_holds (cap s) = true ->
     forall i c, clients s !! i = Some c -> client_holds c = false) /\
  (forall i j ci cj,
     clients s !! i = Some ci -> clients s !! j = Some cj ->
     client_holds ci = true -> client_holds cj = true -> i = j) /\
  (lock s = None ->
     cap_holds (cap s) = false /\
     forall i c, clients s !! i = Some c -> client_holds c = false).
Proof.
  intros He. apply exec_init_reach, reach_inv in He. destruct He as [Hc Hi _].
  split_and!.
  - intros Hcap i c Hl. destruct (client_holds c) eqn:Hh; [|done].
    specialize (Hc Hcap). specialize (Hi _ _ Hl Hh). congruence.
  - intros i j ci cj Hli Hlj Hhi Hhj.
    specialize (Hi _ _ Hli Hhi) as Hi1. specialize (Hi _ _ Hlj Hhj) as Hi2.
    congruence.
  - intros Hfree. split.
    + destruct (cap_holds (cap s)) eqn:Hh; [|done].
      specialize (Hc eq_refl). congruence.
    + intros i c Hl. destruct (client_holds c) eqn:Hh; [|done].
      specialize (Hi _ _ Hl Hh). congruence.
Qed.

Lemma owner_step s a s' evs :
  owner_inv s -> step s a = Some (s', evs) -> owner_inv s'.
Proof.
  intros Ho Hs. unfold owner_inv in *.
  destruct s as [fr ds lk dev pc cls]; simpl in *.
  step_cases Hs; simpl in *; simplify_eq; try done.
  all: repeat case_match; simplify_eq; try done.
  all: try destruct Ho as (c & Hl & Hh).
  all: lazymatch goal with
       | |- exists _, <[?j := ?new]> _ !! ?k = _ /\ _ =>
           tryif constr_eq j k
           then (exists new; split;
                 [apply list_lookup_insert_eq; by eapply lookup_lt_Some|done])
           else (destruct (decide (j = k)) as [Heq|Hne];
                 [ subst; simplify_eq; simpl in *;
                   first [ done
                         | exists new; split;
                           [ apply list_lookup_insert_eq;
                             by eapply lookup_lt_Some
                           | done ] ]
                 | exists c; by rewrite list_lookup_insert_ne ])
       | |- exists _, (_ ++ _) !! _ = _ /\ _ =>
           exists c; split; [by apply lookup_app_l_Some|done]
       end.
Qed.

Lemma reach_owner d s tr : reach d s tr -> owner_inv s.
Proof.
  induction 1 as [|s tr a s' evs Hr IH Hs]; [done|].
  eauto using owner_step.
Qed.

(** X4. A held lock is given back: the holder is inside its with block, its
    next steps are enabled, and after at most three of them the lock is
    free. So no thread that has ended, by an exception or otherwise,
    keeps the lock. *)
Theorem lock_released d sched s tr t :
  exec (init d) sched = Some (s, tr) -> lock s = Some t ->
  exists n s1 tr1,
    n <= 3 /\ exec s (replicate n (Run t)) = Some (s1, tr1) /\ lock s1 = None.
Proof.
  intros He Hlk. apply exec_init_reach, reach_owner in He.
  unfold owner_inv in He. rewrite Hlk in He.
  destruct s as [fr ds lk dev pc cls]; simpl in *. subst lk.
  destruct t as [|i].
  - destruct pc; try done.
    + exists 3. do 2 eexists. split; [lia|]. simpl. split; reflexivity.
    + exists 2. do 2 eexists. split; [lia|]. simpl. split; reflexivity.
    + exists 1. do 2 eexists. split; [lia|]. simpl. split; reflexivity.
  - destruct He as (c & Hl & Hh).
    assert (Hlt : i < length cls) by (by eapply lookup_lt_Some).
    destruct c as [[]|[]]; try done.
    + destruct fr as [img|].
      * exists 2. do 2 eexists. split; [lia|]. simpl. rewrite Hl. simpl.
        rewrite list_lookup_insert_eq by done. simpl. split; reflexivity.
      * exists 1. do 2 eexists. split; [lia|]. simpl. rewrite Hl. simpl.
        split; reflexivity.
    + exists 1. do 2 eexists. split; [lia|]. simpl. rewrite Hl. simpl.
      split; reflexivity.
    + exists 2. do 2 eexists. split; [lia|]. simpl. rewrite Hl. simpl.
      rewrite list_lookup_insert_eq by done. simpl. split; reflexivity.
    + exists 1. do 2 eexists. split; [lia|]. simpl. rewrite Hl. simpl.
      split; reflexivity.
Qed.

(** *** The test of line 160 and the copy of line 165 *)

Lemma checked_step s a s' evs :
  checked_inv s -> step s a = Some (s', evs) -> checked_inv s'.
Proof.
  intros Hk Hs. unfold checked_inv in *.
  destruct s as [fr ds lk dev pc cls]; simpl in *.
  step_cases Hs; simpl in *; simplify_eq.
  all: intros j c' Hj Hc'; try lookup_cases Hj; simpl in *; try done; eauto.
Qed.

Lemma reach_checked d s tr : reach d s tr -> checked_inv s.
Proof.
  induction 1 as [|s tr a s' evs Hr IH Hs].
  - intros i c Hl. done.
  - eauto using checked_step.
Qed.

(** X5. The frame is tested outside the lock and copied inside it, and the
    copy never meets [None]: a generator that is about to copy finds a
    frame, and its step is the copy of that frame. *)
Theorem copy_finds_a_frame d sched s tr i :
  exec (init d) sched = Some (s, tr) ->
  clients s !! i = Some (Stream G165) ->
  exists img,
    frame s = Some img /\
    step s (Run (Cli i))
      = Some (set_client i (Stream (G165x img)) s,
              [EvSnapshot i (Some img) (detections s)]).
Proof.
  intros He Hl. apply exec_init_reach, reach_checked in He.
  destruct (He _ _ Hl eq_refl) as [img Hf]. exists img. split; [done|].
  simpl. rewrite Hl. simpl. rewrite Hf. done.
Qed.

(** *** Who writes what *)

Lemma step_not_capture s a s' evs :
  not_capture a = true -> step s a = Some (s', evs) ->
  frame s' = frame s /\ detections s' = detections s /\
  cap s' = cap s /\ device s' = device s /\ publishes evs = [].
Proof.
  intros Hn Hs. destruct s as [fr ds lk dev pc cls]; simpl in *.
  destruct a as [[|i]| | |i]; try done.
  all: step_cases Hs; simpl in *; done.
Qed.

(** X6. Only capture_video writes the globals and reads the camera: whatever
    the clients do, connecting, running, being closed, the frame, the
    detections, the camera and the capture thread are as before, and
    nothing is published. *)
Theorem only_capture_writes s sched s' tr :
  Forall (fun a => not_capture a = true) sched ->
  exec s sched = Some (s', tr) ->
  frame s' = frame s /\ detections s' = detections s /\
  cap s' = cap s /\ device s' = device s /\ publishes tr = [].
Proof.
  revert s tr. induction sched as [|a rest IH]; intros s tr Hall He; simpl in He.
  - by simplify_eq.
  - destruct (step s a) as [[s1 evs]|] eqn:Hs; [|done].
    destruct (exec s1 rest) as [[s2 tr2]|] eqn:He2; [|done].
    simplify_eq. apply Forall_cons in Hall as [Ha Hall].
    destruct (step_not_capture _ _ _ _ Ha Hs) as (Hf & Hd & Hc & Hv & Hp).
    destruct (IH _ _ Hall He2) as (Hf' & Hd' & Hc' & Hv' & Hp').
    rewrite publishes_app, Hp, Hp'. split_and!; first [done|congruence].
Qed.

Lemma step_other_client i c s a s' evs :
  not_of_client i a = true -> clients s !! i = Some c ->
  step s a = Some (s', evs) ->
  clients s' !! i = Some c /\ Forall (fun e => of_client i e = false) evs.
Proof.
  intros Hn Hl Hs. destruct s as [fr ds lk dev pc cls]; simpl in *.
  assert (Hne : forall j, negb (i =? j) = true -> j <> i).
  { intros j Hj ->. rewrite Nat.eqb_refl in Hj. done. }
  destruct a as [[|j]| | |j]; simpl in Hn;
    try (apply Hne in Hn);
    step_cases Hs; simpl in *; simplify_eq.
  all: split; [|repeat constructor; simpl;
                 by (done || (apply Nat.eqb_neq; congruence))].
  all: first [ done
             | by apply lookup_app_l_Some
             | by rewrite list_lookup_insert_ne ].
Qed.

(** X7. A client is touched by its own steps and its own disconnect only:
    whatever capture_video and the other clients do, and however they
    end, its generator or handler is where it was, and no event is
    recorded in its name. *)
Theorem client_isolated i c s sched s' tr :
  Forall (fun a => not_of_client i a = true) sched ->
  clients s !! i = Some c -> exec s sched = Some (s', tr) ->
  clients s' !! i = Some c /\ Forall (fun e => of_client i e = false) tr.
Proof.
  revert s tr. induction sched as [|a rest IH]; intros s tr Hall Hl He; simpl in He.
  - simplify_eq. split; [done|constructor].
  - destruct (step s a) as [[s1 evs]|] eqn:Hs; [|done].
    destruct (exec s1 rest) as [[s2 tr2]|] eqn:He2; [|done].
    simplify_eq. apply Forall_cons in Hall as [Ha Hall].
    destruct (step_other_client _ _ _ _ _ _ Ha Hl Hs) as [Hl1 Hev1].
    destruct (IH _ _ Hall Hl1 He2) as [Hl2 Hev2].
    split; [done|]. by apply Forall_app.
Qed.

(** *** Exceptions in the for loop *)

Lemma for_body_raises nm acc box : body_raises nm box -> for_body nm acc box = None.
Proof.
  unfold body_raises, for_body. destruct acc as [img cur].
  destruct (xyxy box) as [[[x1 y1] x2] y2].
  intros Hr.
  destruct (py_int (cls box)) as [k|] eqn:Hk; simpl; [|done].
  destruct (nm !! k) as [name|] eqn:Hn; simpl; [|done].
  destruct (py_int x1); simpl; [|done].
  destruct (py_int y1); simpl; [|done].
  destruct (py_int x2); simpl; [|done].
  destruct (py_int y2); simpl; [|done].
  destruct (py_int (fsub y1 (of_int 10))); simpl; [|done].
  destruct Hr as [?|[(k' & ? & ?)|[?|[?|[?|[?|?]]]]]]; simplify_eq.
Qed.

Lemma for_boxes_raises nm bs box :
  box ∈ bs -> body_raises nm box -> forall acc, for_boxes nm bs acc = None.
Proof.
  intros Hin Hr. induction bs as [|b rest IH]; intros acc.
  - by apply elem_of_nil in Hin.
  - simpl. apply elem_of_cons in Hin as [<-|Hin].
    + by rewrite for_body_raises.
    + destruct (for_body nm acc b) as [acc'|]; simpl; [by apply IH|done].
Qed.

(** X8. One box the loop body raises on, a class that is no key of
    [result.names] or a value [int()] refuses, ends capture_video with
    the exception, wherever the box stands among the boxes: nothing of
    the frame is published and the globals, the lock and the clients are
    untouched. *)
Theorem bad_box_ends_capture s img rest r box :
  cap s = L118 -> feed (device s) = img :: rest ->
  model img = InferReturned r -> box ∈ boxes r -> body_raises (names r) box ->
  step s (Run Cap) = Some (set_cap CapRaised (set_feed rest s), []).
Proof.
  intros Hpc Hfeed Hm Hin Hr. simpl. unfold step_capture.
  rewrite Hpc, Hfeed. unfold process. rewrite Hm.
  by rewrite (for_boxes_raises _ _ _ Hin Hr).
Qed.

(** *** A generator closed by the server *)

(** X9. When the server closes a generator suspended at its yield, nothing
    is emitted, the globals, the lock, the capture thread and the other
    clients are untouched, and whatever is scheduled afterwards the
    generator stays closed and emits no chunk. *)
Theorem disconnect_is_local s i :
  clients s !! i = Some (Stream GYield) ->
  exists s1,
    step s (Disconnect i) = Some (s1, []) /\
    frame s1 = frame s /\ detections s1 = detections s /\
    lock s1 = lock s /\ cap s1 = cap s /\
    (forall j, j <> i -> clients s1 !! j = clients s !! j) /\
    forall sched s2 tr, exec s1 sched = Some (s2, tr) ->
      clients s2 !! i = Some (Stream GClosed) /\
      forall img data, EvChunk i img data ∉ tr.
Proof.
  intros Hl. exists (set_client i (Stream GClosed) s).
  assert (Hi : clients (set_client i (Stream GClosed) s) !! i
               = Some (Stream GClosed)).
  { simpl. apply list_lookup_insert_eq. by eapply lookup_lt_Some. }
  split_and!; try done.
  - simpl. by rewrite Hl.
  - intros j Hj. simpl. by rewrite list_lookup_insert_ne.
  - intros sched s2 tr He. by eapply exec_gen_ended.
Qed.

End More.
End MainMore.

(** ** pi_camera.py: proofs *)

Module PiCameraTheory.
Import PiCamera.

Lemma pi_publishes_app tr1 tr2 :
  publishes (tr1 ++ tr2) = publishes tr1 ++ publishes tr2.
Proof.
  induction tr1 as [|e tr1 IH]; [done|].
  destruct e; simpl; rewrite ?IH; done.
Qed.

Lemma pi_published_silent tr evs :
  publishes evs = [] -> published (tr ++ evs) = published tr.
Proof.
  intros Hq. unfold published. rewrite pi_publishes_app, Hq, app_nil_r. done.
Qed.

Lemma pi_published_publish tr fd : published (tr ++ [EvPublish fd]) = fd.
Proof.
  unfold published. rewrite pi_publishes_app. simpl. rewrite last_snoc. done.
Qed.


Lemma pi_step_events s a s' evs :
  step s a = Some (s', evs) -> evs = [] \/ exists e, evs = [e].
Proof. intros Hs. step_cases Hs; eauto. Qed.

Lemma pi_inv_init c : inv (init c) [].
Proof. split; simpl; done. Qed.

Lemma pi_inv_step s tr a s' evs :
  inv s tr -> step s a = Some (s', evs) -> inv s' (tr ++ evs).
Proof.
  intros [Hc Hi Hst Hw Hp Hpub] Hs. unfold store_inv, written in *.
  destruct s as [ofr oc lfb fl cam rec epc cpc cls]; simpl in *.
  step_cases Hs; simpl in *; simplify_eq.
  all: split; unfold store_inv, written; simpl.
  all: try (intros j c' Hj Hh; try lookup_cases Hj; simpl in *; try done).
  all: rewrite ?pi_published_publish, ?pi_published_silent, ?app_nil_r by done.
  all: try done.
  all: try (rewrite pi_publishes_app; apply Forall_app; split; [done|];
            repeat constructor; by apply Hp).
  all: try (intros fd Hfd; simplify_eq; by (apply Hw || apply Hp)).
  all: try (intros _).
  all: try (lock_facts Hc Hi; try specialize (Hi _ _ Hj Hh); simplify_eq; done).
  all: try (by apply Hw).
Qed.

Lemma pi_reach_inv c s tr : reach c s tr -> inv s tr.
Proof.
  induction 1 as [|s tr a s' evs _ IH Hs]; [apply pi_inv_init|].
  eapply pi_inv_step; eauto.
Qed.

Lemma pi_exec_reach c s tr sched s' tr' :
  reach c s tr -> exec s sched = Some (s', tr') -> reach c s' (tr ++ tr').
Proof.
  revert s tr tr'. induction sched as [|a rest IH]; intros s tr tr' Hr He.
  - simpl in He. simplify_eq. rewrite app_nil_r. done.
  - simpl in He. destruct (step s a) as [[s1 evs]|] eqn:Hs; [|done].
    destruct (exec s1 rest) as [[s2 tr2]|] eqn:He2; [|done].
    simplify_eq. rewrite app_assoc. eapply IH; [|done].
    econstructor; eauto.
Qed.

Lemma pi_exec_init_reach c sched s tr :
  exec (init c) sched = Some (s, tr) -> reach c s tr.
Proof. intros He. apply (pi_exec_reach c _ [] _ _ _ (reach_init c) He). Qed.

Lemma pi_reach_event c s tr :
  reach c s tr ->
  forall tr1 e tr2, tr = tr1 ++ e :: tr2 ->
  exists s1 a s2, reach c s1 tr1 /\ step s1 a = Some (s2, [e]).
Proof.
  induction 1 as [|s tr a s' evs Hr IH Hs]; intros tr1 e tr2 Heq.
  - destruct tr1; done.
  - destruct (pi_step_events _ _ _ _ Hs) as [->|[e' ->]].
    + rewrite app_nil_r in Heq. eauto.
    + destruct tr2 as [|x tr2 _] using rev_ind.
      * apply app_inj_tail in Heq as [-> ->]. eauto.
      * rewrite app_comm_cons, app_assoc in Heq.
        apply app_inj_tail in Heq as [-> _]. eauto.
Qed.

(** A snapshot is taken by a generator that holds [frame_lock], and it
    sees the global as the last completed publish left it. *)
Lemma pi_snapshot_step s tr a s2 i f :
  inv s tr -> step s a = Some (s2, [EvSnapshot i f]) ->
  a = Run (Cli i) /\ frame_lock s = Some (Cli i) /\
  f = latest_frame_buffer s /\ f = published tr.
Proof.
  intros [Hc Hi Hst _ _ _] Hs. unfold store_inv in Hst.
  destruct s as [ofr oc lfb fl cam rec epc cpc cls]; simpl in *.
  step_cases Hs; simpl in *; simplify_eq.
  all: lock_facts Hc Hi; simplify_eq; done.
Qed.

Lemma pi_chunk_step s a s2 i f data :
  step s a = Some (s2, [EvChunk i f data]) ->
  clients s !! i = Some (G85 f) /\ data = chunk f.
Proof. intros Hs. step_cases Hs. done. Qed.

Lemma pi_publish_step s tr a s2 fd :
  inv s tr -> step s a = Some (s2, [EvPublish fd]) -> is_Some fd.
Proof.
  intros [_ _ _ _ Hp _] Hs.
  destruct s as [ofr oc lfb fl cam rec epc cpc cls]; simpl in *.
  step_cases Hs; simpl in *; simplify_eq. by apply Hp.
Qed.

Lemma pi_step_latest s tr a s' evs :
  inv s tr -> step s a = Some (s', evs) ->
  is_Some (latest_frame_buffer s) -> is_Some (latest_frame_buffer s').
Proof.
  intros [_ _ _ _ Hp _] Hs Hl.
  destruct s as [ofr oc lfb fl cam rec epc cpc cls]; simpl in *.
  step_cases Hs; simpl in *; simplify_eq; try done. by apply Hp.
Qed.

Lemma pi_exec_latest c s tr sched s' tr' :
  reach c s tr -> exec s sched = Some (s', tr') ->
  is_Some (latest_frame_buffer s) -> is_Some (latest_frame_buffer s').
Proof.
  revert s tr tr'. induction sched as [|a rest IH]; intros s tr tr' Hr He Hl.
  - simpl in He. by simplify_eq.
  - simpl in He. destruct (step s a) as [[s1 evs]|] eqn:Hs; [|done].
    destruct (exec s1 rest) as [[s2 tr2]|] eqn:He2; [|done].
    simplify_eq. eapply (IH s1 (tr ++ evs)); [by econstructor|done|].
    eapply pi_step_latest; eauto using pi_reach_inv.
Qed.

Lemma pi_reach_latest c s tr :
  reach c s tr -> publishes tr <> [] -> is_Some (latest_frame_buffer s).
Proof.
  intros Hr Hp. destruct (pi_reach_inv _ _ _ Hr) as [_ _ Hst _ Hpe Hpub].
  unfold store_inv in Hst.
  assert (Hq : is_Some (published tr)).
  { unfold published. destruct (last (publishes tr)) as [fd|] eqn:Hl.
    - rewrite Forall_forall in Hpub. apply Hpub.
      apply last_Some in Hl as [l' ->]. apply elem_of_app. right. by left.
    - by apply last_None in Hl. }
  destruct (cap s); try (by rewrite Hst). rewrite Hst. by apply Hpe.
Qed.

(** pi_camera.py part of C9. *)
Lemma pi_present_after_publish c sched s tr :
  exec (init c) sched = Some (s, tr) ->
  (forall fd, EvPublish fd ∈ tr -> is_Some fd) /\
  (forall tr1 i f tr2,
     tr = tr1 ++ EvSnapshot i f :: tr2 -> publishes tr1 <> [] -> is_Some f) /\
  (publishes tr <> [] -> is_Some (latest_frame_buffer s)) /\
  (forall sched' s' tr',
     exec s sched' = Some (s', tr') ->
     is_Some (latest_frame_buffer s) -> is_Some (latest_frame_buffer s')).
Proof.
  intros He. apply pi_exec_init_reach in He. split_and!.
  - intros fd Hin. apply list_elem_of_split in Hin as (tr1 & tr2 & Heq).
    destruct (pi_reach_event _ _ _ He _ _ _ Heq) as (s1 & a & s2 & Hr & Hs).
    eapply pi_publish_step; eauto using pi_reach_inv.
  - intros tr1 i f tr2 Heq Hp.
    destruct (pi_reach_event _ _ _ He _ _ _ Heq) as (s1 & a & s2 & Hr & Hs).
    apply (pi_snapshot_step _ tr1) in Hs as (_ & _ & -> & _);
      [|by eapply pi_reach_inv].
    eauto using pi_reach_latest.
  - eauto using pi_reach_latest.
  - eauto using pi_exec_latest.
Qed.

Lemma pi_chunk_spelled f : chunk f = chunk_head ++ f ++ CRLF.
Proof. reflexivity. Qed.

(** pi_camera.py part of C4. *)
Lemma pi_chunk_format c sched s tr i f data :
  exec (init c) sched = Some (s, tr) -> EvChunk i f data ∈ tr ->
  data = chunk_head ++ f ++ CRLF.
Proof.
  intros He Hin. apply pi_exec_init_reach in He.
  apply list_elem_of_split in Hin as (tr1 & tr2 & Heq).
  destruct (pi_reach_event _ _ _ He _ _ _ Heq) as (s1 & a & s2 & Hr & Hs).
  apply pi_chunk_step in Hs as (_ & ->). done.
Qed.






End PiCameraTheory.

(** ** pi_camera.py: further properties *)

Module PiCameraMore.
Import PiCamera PiCameraTheory.














(** *** The two locks *)


(** *** Before the first publish *)

Lemma pi_published_absent tr : publishes tr = [] -> published tr = None.
Proof. intros Hp. unfold published. by rewrite Hp. Qed.

Lemma pi_early_step s tr a s' evs :
  inv s tr -> publishes tr = [] -> pi_early s ->
  step s a = Some (s', evs) -> publishes evs = [] -> pi_early s'.
Proof.
  intros [Hc Hi Hst _ _ _] Hp He Hs Hq. unfold store_inv in Hst.
  rewrite (pi_published_absent _ Hp) in Hst.
  destruct s as [ofr oc lfb fl cam rec epc cpc cls]; unfold pi_early in *.
  simpl in *.
  destruct a as [[| |i]| |i]; simpl in Hs.
  - assert (Hsame : clients s' = cls).
    { unfold step_encoder, notify_all in Hs.
      repeat (case_match; simplify_eq); by simplify_eq. }
    by rewrite Hsame.
  - assert (Hsame : clients s' = cls).
    { unfold step_capture in Hs.
      repeat (case_match; simplify_eq); by simplify_eq. }
    by rewrite Hsame.
  - destruct (cls !! i) as [pc|] eqn:Hl; [|done].
    pose proof (He _ _ Hl) as Hpc.
    unfold step_stream in Hs.
    destruct pc; repeat (case_match; simplify_eq); simplify_eq; simpl in *;
      try done.
    all: intros j pc' Hj; lookup_cases Hj; simpl;
      try exact (He _ _ Hj); try done.
    specialize (Hi _ _ Hl eq_refl). specialize (Hc eq_refl). congruence.
  - simplify_eq. simpl. intros j pc' Hj. lookup_cases Hj; simpl;
      try exact (He _ _ Hj); done.
  - destruct (cls !! i) as [pc|] eqn:Hl; [|done].
    pose proof (He _ _ Hl) as Hpc. destruct pc; simplify_eq. done.
Qed.

Lemma pi_reach_early c s tr : reach c s tr -> publishes tr = [] -> pi_early s.
Proof.
  induction 1 as [|s tr a s' evs Hr IH Hs]; intros Hp.
  - intros i pc Hl. done.
  - rewrite pi_publishes_app in Hp. apply app_eq_nil in Hp as [Hp1 Hp2].
    eapply pi_early_step; eauto using pi_reach_inv.
Qed.

(** The no-frame branch of generate_camera_stream: sleep 0.01 s, then
    take the lock again. *)
Lemma pi_retry_when_absent s i :
  clients s !! i = Some (G81 None) ->
  exec s [Run (Cli i); Run (Cli i)]
    = Some (set_client i G78 s, [EvSleep i 0.01%Q]).
Proof.
  intros Hl. destruct s as [ofr oc lfb fl cam rec epc cpc cls]; simpl in *.
  rewrite Hl. simpl. unfold set_client at 1. simpl.
  rewrite list_lookup_insert_eq by (eapply lookup_lt_Some; done). simpl.
  unfold set_client; simpl. by rewrite list_insert_insert_eq.
Qed.

Lemma pi_before_publish c s tr :
  reach c s tr -> publishes tr = [] ->
  (forall i f, EvSnapshot i f ∈ tr -> f = None) /\
  (forall i f data, EvChunk i f data ∉ tr).
Proof.
  intros He Hp.
  assert (Hev : forall e, e ∈ tr ->
            exists tr1 s1 a s2, reach c s1 tr1 /\ publishes tr1 = [] /\
                                step s1 a = Some (s2, [e])).
  { intros e Hin. apply list_elem_of_split in Hin as (tr1 & tr2 & ->).
    destruct (pi_reach_event _ _ _ He _ _ _ eq_refl) as (s1 & a & s2 & Hr & Hs).
    exists tr1, s1, a, s2. split_and!; [done| |done].
    rewrite pi_publishes_app in Hp. by apply app_eq_nil in Hp as [Hp _]. }
  split.
  - intros i f Hin.
    apply Hev in Hin as (tr1 & s1 & a & s2 & Hr & Hp1 & Hs).
    apply (pi_snapshot_step _ tr1) in Hs as (_ & _ & _ & ->);
      [|by eapply pi_reach_inv].
    by apply pi_published_absent.
  - intros i f data Hin.
    apply Hev in Hin as (tr1 & s1 & a & s2 & Hr & Hp1 & Hs).
    apply pi_chunk_step in Hs as [Hs _].
    apply (pi_reach_early _ _ _ Hr Hp1) in Hs. done.
Qed.

(** X13. While capture_frames_continuously has published nothing, under every
    schedule every generator reads [None] under the lock and emits no
    chunk; having read [None] it sleeps 0.01 s and goes back to take the
    lock. *)
Theorem pi_absent_before_first_publish c sched s tr :
  exec (init c) sched = Some (s, tr) -> publishes tr = [] ->
  (forall i f, EvSnapshot i f ∈ tr -> f = None) /\
  (forall i f data, EvChunk i f data ∉ tr) /\
  (forall i, clients s !! i = Some (G81 None) ->
     exec s [Run (Cli i); Run (Cli i)]
       = Some (set_client i G78 s, [EvSleep i 0.01%Q])).
Proof.
  intros He Hp. apply pi_exec_init_reach in He.
  destruct (pi_before_publish _ _ _ He Hp) as [Hsn Hch].
  split_and!; [done|done|]. intros i. apply pi_retry_when_absent.
Qed.

(** *** The setup that fails *)

Lemma pi_not_started_step s a s' evs :
  not_started s -> step s a = Some (s', evs) ->
  not_started s' /\ publishes evs = [].
Proof.
  intros (Hst & Hrec & Hen & Hof & Hl & Hc) Hs. unfold not_started.
  destruct s as [ofr oc lfb fl [st rem] rec epc cpc cls]; simpl in *. subst.
  destruct a as [[| |i]| |i]; simpl in Hs.
  - unfold step_encoder in Hs. simpl in Hs. done.
  - unfold step_capture in Hs.
    destruct Hc as [->| ->]; simpl in Hs; simplify_eq; simpl; auto 10.
  - destruct (cls !! i) as [pc|]; [|done]. unfold step_stream in Hs.
    destruct pc; repeat (case_match; simplify_eq); simplify_eq;
      simpl; auto 10.
  - simplify_eq. simpl. auto 10.
  - destruct (cls !! i) as [[]|]; simplify_eq; simpl; auto 10.
Qed.

Lemma pi_reach_not_started c s tr :
  starts c = false -> reach c s tr -> not_started s /\ publishes tr = [].
Proof.
  intros Hst. induction 1 as [|s tr a s' evs Hr [IH Hp] Hs].
  - split; [|done]. unfold not_started. simpl. auto 10.
  - destruct (pi_not_started_step _ _ _ _ IH Hs) as [Hn Hq].
    split; [done|]. by rewrite pi_publishes_app, Hp, Hq.
Qed.

(** X14. If the setup of lines 41-53 raises, then under every schedule:
    capture_frames_continuously has not run yet, and its one step is to
    end, or it has ended and takes no step; recording never starts, so
    [write] is never called; nothing is published, the global stays
    [None], and no generator emits a chunk. *)
Theorem pi_setup_failure c sched s tr :
  starts c = false -> exec (init c) sched = Some (s, tr) ->
  (cap s = L40 /\ step s (Run Cap) = Some (set_cap CapFailed s, []) \/
   cap s = CapFailed /\ step s (Run Cap) = None) /\
  step s (Run Enc) = None /\
  publishes tr = [] /\ latest_frame_buffer s = None /\
  (forall i f data, EvChunk i f data ∉ tr).
Proof.
  intros Hst He. apply pi_exec_init_reach in He.
  destruct (pi_reach_not_started _ _ _ Hst He)
    as [(Hs & Hrec & Hen & Hof & Hl & Hc) Hp].
  destruct (pi_before_publish _ _ _ He Hp) as [_ Hch].
  split_and!; try done.
  - destruct Hc as [Hc|Hc]; [left|right]; split; try done.
    + simpl. unfold step_capture. by rewrite Hc, Hs.
    + simpl. unfold step_capture. by rewrite Hc.
  - simpl. unfold step_encoder. by rewrite Hen, Hrec.
Qed.

End PiCameraMore.

(** ** Both programs *)

Section Variants.
Context `{Detector}.

(** C4. In main.py and in pi_camera.py, under every schedule, every chunk
    a generator emits is the bytes of
    [--frame CRLF Content-Type: image/jpeg CRLF CRLF], then the encoded
    frame (in main.py the buffer [cv2.imencode] returned for the copied
    frame, in pi_camera.py the published JPEG), then [CRLF]; and the
    mimetype of both responses is
    [multipart/x-mixed-replace; boundary=frame]. *)
Theorem chunks_are_framed :
  (forall d sched s tr i img data,
     Main.exec (Main.init d) sched = Some (s, tr) ->
     Main.EvChunk i img data ∈ tr ->
     exists retval buffer,
       imencode_jpg img = EncReturned retval buffer /\
       data = ascii_bytes "--frame" ++ CRLF ++
              ascii_bytes "Content-Type: image/jpeg" ++ CRLF ++ CRLF ++
              buffer ++ CRLF) /\
  Main.mimetype = "multipart/x-mixed-replace; boundary=frame" /\
  (forall c sched s tr i f data,
     PiCamera.exec (PiCamera.init c) sched = Some (s, tr) ->
     PiCamera.EvChunk i f data ∈ tr ->
     data = ascii_bytes "--frame" ++ CRLF ++
            ascii_bytes "Content-Type: image/jpeg" ++ CRLF ++ CRLF ++
            f ++ CRLF) /\
  PiCamera.mimetype = "multipart/x-mixed-replace; boundary=frame".
Proof.
  split_and!; [|done| |done].
  - intros d sched s tr i img data He Hin.
    destruct (MainTheory.chunk_format _ _ _ _ _ _ _ He Hin)
      as (retval & buffer & Henc & ->).
    exists retval, buffer. split; [done|].
    unfold Main.chunk_head. by rewrite <- !app_assoc.
  - intros c sched s tr i f data He Hin.
    rewrite (PiCameraTheory.pi_chunk_format _ _ _ _ _ _ _ He Hin).
    unfold PiCamera.chunk_head. by rewrite <- !app_assoc.
Qed.


(** C9. In main.py and in pi_camera.py, under every schedule: every
    snapshot taken after a completed publish sees a frame; once a publish
    has completed the global holds a frame; a global that holds a frame
    holds one after every further schedule; and what pi_camera.py's
    capture thread stores is always a frame (in main.py the stored value
    is a frame by its type). *)
Theorem present_never_absent_again :
  (forall d sched s tr,
     Main.exec (Main.init d) sched = Some (s, tr) ->
     (forall tr1 i f ds tr2,
        tr = tr1 ++ Main.EvSnapshot i f ds :: tr2 ->
        Main.publishes tr1 <> [] -> is_Some f) /\
     (Main.publishes tr <> [] -> is_Some (Main.frame s)) /\
     (forall sched' s' tr',
        Main.exec s sched' = Some (s', tr') ->
        is_Some (Main.frame s) -> is_Some (Main.frame s'))) /\
  (forall c sched s tr,
     PiCamera.exec (PiCamera.init c) sched = Some (s, tr) ->
     (forall fd, PiCamera.EvPublish fd ∈ tr -> is_Some fd) /\
     (forall tr1 i f tr2,
        tr = tr1 ++ PiCamera.EvSnapshot i f :: tr2 ->
        PiCamera.publishes tr1 <> [] -> is_Some f) /\
     (PiCamera.publishes tr <> [] ->
        is_Some (PiCamera.latest_frame_buffer s)) /\
     (forall sched' s' tr',
        PiCamera.exec s sched' = Some (s', tr') ->
        is_Some (PiCamera.latest_frame_buffer s) ->
        is_Some (PiCamera.latest_frame_buffer s'))).
Proof.
  split.
  - intros d sched s tr He. by apply (MainTheory.present_after_publish d sched).
  - intros c sched s tr He.
    by apply (PiCameraTheory.pi_present_after_publish c sched).
Qed.

End Variants.

(** *** The payload of a chunk *)

Lemma framed_payload (head tail jpg : bytes) :
  take (length jpg) (drop (length head) (head ++ jpg ++ tail)) = jpg.
Proof. by rewrite drop_app_length, take_app_length. Qed.

Lemma framed_inj (head tail jpg jpg' : bytes) :
  head ++ jpg ++ tail = head ++ jpg' ++ tail -> jpg = jpg'.
Proof. intros Heq. by apply app_inv_head, app_inv_tail in Heq. Qed.

(** X10. In both programs the chunk of a frame is 39 bytes longer than the
    frame, the frame is read back from it after the 37 bytes of the part
    header (no length is sent: the frame ends two bytes before the end of
    the chunk), and two frames with the same chunk are the same frame. *)
Theorem chunk_payload (jpg : bytes) :
  (length (Main.chunk jpg) = 37 + length jpg + 2 /\
   take (length jpg) (drop 37 (Main.chunk jpg)) = jpg /\
   forall jpg', Main.chunk jpg = Main.chunk jpg' -> jpg = jpg') /\
  (length (PiCamera.chunk jpg) = 37 + length jpg + 2 /\
   take (length jpg) (drop 37 (PiCamera.chunk jpg)) = jpg /\
   forall jpg', PiCamera.chunk jpg = PiCamera.chunk jpg' -> jpg = jpg').
Proof.
  split; split_and!.
  - unfold Main.chunk. rewrite !length_app. simpl. lia.
  - exact (framed_payload Main.chunk_head CRLF jpg).
  - intros jpg'. exact (framed_inj Main.chunk_head CRLF jpg jpg').
  - unfold PiCamera.chunk. rewrite !length_app. simpl. lia.
  - exact (framed_payload PiCamera.chunk_head CRLF jpg).
  - intros jpg'. exact (framed_inj PiCamera.chunk_head CRLF jpg jpg').
Qed.

(** ** The theorems on the concrete runs *)

Module Runs.
Import Main MainTheory Fake.

#[local] Existing Instances fake_float fake_cv fake_model.

Lemma fake_calibrated : calibrated.
Proof.
  intros img r box Hm Hin. simpl in Hm.
  destruct img as [|name [|]]; repeat case_match; simplify_eq; simpl in Hin;
    try (by apply elem_of_nil in Hin).
  apply list_elem_of_singleton in Hin as ->. done.
Qed.

(** C1 on the demo run: the snapshot of the generator sees the frame and
    the detections of the one publish before it. *)
Lemma snapshot_of_one_publish_witness :
  exec (init demo_device) demo_sched = Some (demo_state, demo_trace) /\
  demo_trace
    = demo_before ++ EvSnapshot 1 (Some cat_frame) cat_detections :: demo_after /\
  ((publishes demo_before = [] /\ Some cat_frame = None /\ cat_detections = []) \/
   (exists img, Some cat_frame = Some img /\
                last (publishes demo_before) = Some (img, cat_detections))).
Proof.
  split; [reflexivity|].
  split; [reflexivity|].
  refine (snapshot_of_one_publish demo_device demo_sched demo_state demo_trace
            _ demo_before 1 (Some cat_frame) cat_detections demo_after _).
  - reflexivity.
  - reflexivity.
Defined.


(** C3 as the spec words it fails on the first frame of [noise_device]:
    the model raises, and capture_video is not back at the top of its
    loop; it has ended with the exception and takes no further step. *)
Lemma inference_failure_stops_capture :
  cap noise_state = L118 /\
  feed (device noise_state) = [["noise"]; ["cat"]] /\
  model ["noise"] = InferRaised /\
  step noise_state (Run Cap) = Some (noise_raised, []) /\
  cap noise_raised = CapRaised /\
  step noise_raised (Run Cap) = None /\
  ~ (exists s1, step noise_state (Run Cap) = Some (s1, []) /\ cap s1 = L118).
Proof.
  split_and!; try (reflexivity).
  intros (s1 & Hs & Hc).
  assert (Hn : step noise_state (Run Cap) = Some (noise_raised, []))
    by (reflexivity).
  rewrite Hn in Hs. by simplify_eq.
Qed.

Lemma inference_failure_ends_capture_witness :
  cap noise_state = L118 /\
  feed (device noise_state) = ["noise"] :: [["cat"]] /\
  model ["noise"] = InferRaised /\
  exists s1,
    step noise_state (Run Cap) = Some (s1, []) /\ cap s1 = CapRaised /\
    frame s1 = frame noise_state /\ detections s1 = detections noise_state /\
    lock s1 = lock noise_state /\ clients s1 = clients noise_state /\
    step s1 (Run Cap) = None /\
    forall sched s2 tr, exec s1 sched = Some (s2, tr) ->
      cap s2 = CapRaised /\ publishes tr = [] /\
      frame s2 = frame noise_state /\ detections s2 = detections noise_state.
Proof.
  split; [reflexivity|].
  split; [reflexivity|].
  split; [reflexivity|].
  apply (inference_failure_ends_capture noise_state ["noise"] [["cat"]]).
  - reflexivity.
  - reflexivity.
  - reflexivity.
Defined.


(** C7 on the demo run: the response to the second handler. *)
Lemma detections_response_witness :
  calibrated /\
  exec (init demo_device) demo_sched = Some (demo_state, demo_trace) /\
  EvResponse 2 demo_body ∈ demo_trace /\
  exists ds : list Detection,
    demo_body = dumps_detections ds /\ Forall wf_detection ds.
Proof.
  assert (Hin : EvResponse 2 demo_body ∈ demo_trace).
  { unfold demo_trace, demo_body.
    repeat first [apply list_elem_of_here | apply list_elem_of_further]. }
  split; [exact fake_calibrated|].
  split; [reflexivity|].
  split; [exact Hin|].
  refine (detections_response demo_device demo_sched demo_state demo_trace
            fake_calibrated _ 2 demo_body Hin).
  reflexivity.
Defined.



(** C10 on the state the demo run ends in: the next frame is a wall, in
    which the model finds nothing. *)
Lemma publish_without_detections_witness :
  cap demo_state = L118 /\ lock demo_state = None /\
  feed (device demo_state) = ["wall"] :: [] /\
  model ["wall"] = InferReturned {| boxes := []; names := ∅ |} /\
  exists s1,
    exec demo_state [Run Cap; Run Cap; Run Cap; Run Cap; Run Cap]
      = Some (s1, [EvPublish ["wall"] []]) /\
    frame s1 = Some ["wall"] /\ detections s1 = [] /\
    cap s1 = L118 /\ lock s1 = None /\ clients s1 = clients demo_state /\
    (exists s2,
       exec s1 [GetDetections; Run (Cli 3); Run (Cli 3); Run (Cli 3)]
         = Some (s2, [EvSnapshot 3 (Some ["wall"]) []; EvResponse 3 "[]"])) /\
    (forall retval buffer, imencode_jpg ["wall"] = EncReturned retval buffer ->
       exists s2,
         exec s1 [GetVideoFeed; Run (Cli 3); Run (Cli 3); Run (Cli 3);
                  Run (Cli 3); Run (Cli 3)]
           = Some (s2, [EvSnapshot 3 (Some ["wall"]) [];
                        EvChunk 3 ["wall"] (chunk buffer)])).
Proof.
  split; [reflexivity|].
  split; [reflexivity|].
  split; [reflexivity|].
  split; [reflexivity|].
  apply (publish_without_detections demo_state ["wall"] []
           {| boxes := []; names := ∅ |}).
  - reflexivity.
  - reflexivity.
  - reflexivity.
  - reflexivity.
  - reflexivity.
Defined.

(** C4, C5 and C9 on the demo runs of both programs. *)
Lemma chunks_are_framed_witness :
  (exists retval buffer,
     imencode_jpg cat_frame = EncReturned retval buffer /\
     chunk (ascii_bytes "cat+box+cat: 1.00")
       = ascii_bytes "--frame" ++ CRLF ++
         ascii_bytes "Content-Type: image/jpeg" ++ CRLF ++ CRLF ++
         buffer ++ CRLF) /\
  PiCamera.chunk jpeg1
    = ascii_bytes "--frame" ++ CRLF ++
      ascii_bytes "Content-Type: image/jpeg" ++ CRLF ++ CRLF ++
      jpeg1 ++ CRLF.
Proof.
  destruct chunks_are_framed as (Hmain & _ & Hpi & _). split.
  - apply (Hmain demo_device demo_sched demo_state demo_trace 1).
    + reflexivity.
    + unfold demo_trace.
      repeat first [apply list_elem_of_here | apply list_elem_of_further].
  - apply (Hpi pi_device pi_sched pi_state pi_trace 0).
    + reflexivity.
    + unfold pi_trace.
      repeat first [apply list_elem_of_here | apply list_elem_of_further].
Defined.


(** The order is not strict: resumed after its yield, the generator of the
    demo run copies and emits the same published frame again. *)
Example frame_emitted_twice :
  exists s tr,
    exec demo_state [Run (Cli 1); Run (Cli 1); Run (Cli 1);
                     Run (Cli 1); Run (Cli 1); Run (Cli 1)] = Some (s, tr) /\
    frames (demo_trace ++ tr) = [cat_frame] /\
    emitted 1 (demo_trace ++ tr) = [cat_frame; cat_frame].
Proof. eexists _, _. split_and!; reflexivity. Qed.

Lemma present_never_absent_again_witness :
  (publishes demo_trace <> [] -> is_Some (frame demo_state)) /\
  (PiCamera.publishes pi_trace <> [] ->
     is_Some (PiCamera.latest_frame_buffer pi_state)).
Proof.
  destruct present_never_absent_again as (Hmain & Hpi). split.
  - apply (Hmain demo_device demo_sched demo_state demo_trace).
    reflexivity.
  - apply (Hpi pi_device pi_sched pi_state pi_trace).
    reflexivity.
Defined.

End Runs.

(** ** More theorems on concrete runs *)

Module MoreRuns.
Import Main MainTheory MainMore Fake Fake2.

#[local] Existing Instances fake_float fake_cv fake_model.

(** On the run that reads both frames of the demo camera: capture_video
    has ended by the break, and what it published is what its loop
    publishes on the two frames. *)
Lemma publishes_in_camera_order_witness :
  exec (init demo_device) done_sched = Some (done_state, done_trace) /\
  publishes done_trace `prefix_of` (capture_all (feed demo_device)).1 /\
  (cap done_state = CapReleased ->
     capture_all (feed demo_device) = (publishes done_trace, true)) /\
  (cap done_state = CapRaised ->
     capture_all (feed demo_device) = (publishes done_trace, false)).
Proof.
  split; [reflexivity|].
  apply (publishes_in_camera_order demo_device done_sched). reflexivity.
Defined.

(** On the demo run: the publish of the annotated cat. *)
Lemma published_describes_witness :
  exec (init demo_device) demo_sched = Some (demo_state, demo_trace) /\
  EvPublish cat_frame cat_detections ∈ demo_trace /\
  exists raw r,
    raw ∈ feed demo_device /\ process raw = Some (cat_frame, cat_detections) /\
    model raw = InferReturned r /\
    Forall2 (describes (names r)) (boxes r) cat_detections.
Proof.
  assert (Hin : EvPublish cat_frame cat_detections ∈ demo_trace).
  { unfold demo_trace. repeat first [apply list_elem_of_here | apply list_elem_of_further]. }
  split; [reflexivity|]. split; [exact Hin|].
  refine (published_describes demo_device demo_sched demo_state demo_trace
            cat_frame cat_detections _ Hin).
  reflexivity.
Defined.

(** On the run stopped while capture_video has the lock. *)
Lemma mutual_exclusion_witness :
  exec (init demo_device) held_sched = Some (held_state, held_trace) /\
  (cap_holds (cap held_state) = true ->
     forall i c, clients held_state !! i = Some c -> client_holds c = false) /\
  (forall i j ci cj,
     clients held_state !! i = Some ci -> clients held_state !! j = Some cj ->
     client_holds ci = true -> client_holds cj = true -> i = j) /\
  (lock held_state = None ->
     cap_holds (cap held_state) = false /\
     forall i c, clients held_state !! i = Some c -> client_holds c = false).
Proof.
  split; [reflexivity|].
  apply (mutual_exclusion demo_device held_sched held_state held_trace).
  reflexivity.
Defined.

(** On the run stopped while capture_video has the lock. *)
Lemma lock_released_witness :
  exec (init demo_device) held_sched = Some (held_state, held_trace) /\
  lock held_state = Some Cap /\
  exists n s1 tr1,
    n <= 3 /\ exec held_state (replicate n (Run Cap)) = Some (s1, tr1) /\
    lock s1 = None.
Proof.
  split; [reflexivity|]. split; [reflexivity|].
  refine (lock_released demo_device held_sched held_state held_trace Cap _ _);
    reflexivity.
Defined.

(** On the run stopped when the generator of client 1 has the lock. *)
Lemma copy_finds_a_frame_witness :
  exec (init demo_device) copy_sched = Some (copy_state, copy_trace) /\
  clients copy_state !! 1 = Some (Stream G165) /\
  exists img,
    frame copy_state = Some img /\
    step copy_state (Run (Cli 1))
      = Some (set_client 1 (Stream (G165x img)) copy_state,
              [EvSnapshot 1 (Some img) (detections copy_state)]).
Proof.
  split; [reflexivity|]. split; [reflexivity|].
  refine (copy_finds_a_frame demo_device copy_sched copy_state copy_trace 1 _ _);
    reflexivity.
Defined.

(** After the demo run: two new clients and a disconnect. *)
Lemma only_capture_writes_witness :
  Forall (fun a => not_capture a = true) clients_only /\
  exec demo_state clients_only = Some (clients_only_state, clients_only_trace) /\
  frame clients_only_state = frame demo_state /\
  detections clients_only_state = detections demo_state /\
  cap clients_only_state = cap demo_state /\
  device clients_only_state = device demo_state /\
  publishes clients_only_trace = [].
Proof.
  assert (Hall : Forall (fun a => not_capture a = true) clients_only).
  { repeat constructor. }
  split; [exact Hall|]. split; [reflexivity|].
  refine (only_capture_writes demo_state clients_only clients_only_state
            clients_only_trace Hall _).
  reflexivity.
Defined.

(** After the demo run: the generator of client 1, suspended at its
    yield, while capture_video and the others run. *)
Lemma client_isolated_witness :
  Forall (fun a => not_of_client 1 a = true) others /\
  clients demo_state !! 1 = Some (Stream GYield) /\
  exec demo_state others = Some (others_state, others_trace) /\
  clients others_state !! 1 = Some (Stream GYield) /\
  Forall (fun e => of_client 1 e = false) others_trace.
Proof.
  assert (Hall : Forall (fun a => not_of_client 1 a = true) others).
  { repeat constructor. }
  split; [exact Hall|]. split; [reflexivity|]. split; [reflexivity|].
  refine (client_isolated 1 (Stream GYield) demo_state others others_state
            others_trace Hall _ _); reflexivity.
Defined.

(** After the demo run: the generator of client 1 is closed. *)
Lemma disconnect_is_local_witness :
  clients demo_state !! 1 = Some (Stream GYield) /\
  exists s1,
    step demo_state (Disconnect 1) = Some (s1, []) /\
    frame s1 = frame demo_state /\ detections s1 = detections demo_state /\
    lock s1 = lock demo_state /\ cap s1 = cap demo_state /\
    (forall j, j <> 1 -> clients s1 !! j = clients demo_state !! j) /\
    forall sched s2 tr, exec s1 sched = Some (s2, tr) ->
      clients s2 !! 1 = Some (Stream GClosed) /\
      forall img data, EvChunk 1 img data ∉ tr.
Proof.
  split; [reflexivity|].
  apply (disconnect_is_local demo_state 1). reflexivity.
Defined.



(** pi_camera.py, on the run stopped before the first publish, with a
    generator that has read [None]. *)
Lemma pi_absent_before_first_publish_witness :
  PiCamera.exec (PiCamera.init pi_device) pi_early_sched
    = Some (pi_early_state, pi_early_trace) /\
  PiCamera.publishes pi_early_trace = [] /\
  (forall i f, PiCamera.EvSnapshot i f ∈ pi_early_trace -> f = None) /\
  (forall i f data, PiCamera.EvChunk i f data ∉ pi_early_trace) /\
  (forall i, PiCamera.clients pi_early_state !! i = Some (PiCamera.G81 None) ->
     PiCamera.exec pi_early_state
       [PiCamera.Run (PiCamera.Cli i); PiCamera.Run (PiCamera.Cli i)]
       = Some (PiCamera.set_client i PiCamera.G78 pi_early_state,
               [PiCamera.EvSleep i 0.01%Q])).
Proof.
  split; [reflexivity|]. split; [reflexivity|].
  refine (PiCameraMore.pi_absent_before_first_publish pi_device pi_early_sched
            pi_early_state pi_early_trace _ _); reflexivity.
Defined.

(** pi_camera.py, with a camera whose setup raises. *)
Lemma pi_setup_failure_witness :
  PiCamera.starts pi_broken = false /\
  PiCamera.exec (PiCamera.init pi_broken) pi_broken_sched
    = Some (pi_broken_state, pi_broken_trace) /\
  (PiCamera.cap pi_broken_state = PiCamera.L40 /\
   PiCamera.step pi_broken_state (PiCamera.Run PiCamera.Cap)
     = Some (PiCamera.set_cap PiCamera.CapFailed pi_broken_state, []) \/
   PiCamera.cap pi_broken_state = PiCamera.CapFailed /\
   PiCamera.step pi_broken_state (PiCamera.Run PiCamera.Cap) = None) /\
  PiCamera.step pi_broken_state (PiCamera.Run PiCamera.Enc) = None /\
  PiCamera.publishes pi_broken_trace = [] /\
  PiCamera.latest_frame_buffer pi_broken_state = None /\
  (forall i f data, PiCamera.EvChunk i f data ∉ pi_broken_trace).
Proof.
  split; [reflexivity|]. split; [reflexivity|].
  refine (PiCameraMore.pi_setup_failure pi_broken pi_broken_sched
            pi_broken_state pi_broken_trace _ _); reflexivity.
Defined.

End MoreRuns.

Module DogRuns.
Import Main MainTheory MainMore Fake FakeDog.

#[local] Existing Instances fake_float fake_cv dog_model.

(** The second box of the result has class 16, which is no key of
    [result.names]: the lookup of line 132 raises after the first box has
    been handled. *)
Lemma bad_box_ends_capture_witness :
  cap dog_state = L118 /\
  feed (device dog_state) = ["dog"] :: [["cat"]] /\
  model ["dog"] = InferReturned dog_result /\
  dog_box ∈ boxes dog_result /\
  body_raises (names dog_result) dog_box /\
  step dog_state (Run Cap)
    = Some (set_cap CapRaised (set_feed [["cat"]] dog_state), []).
Proof.
  assert (Hin : dog_box ∈ boxes dog_result).
  { apply list_elem_of_further, list_elem_of_here. }
  assert (Hr : body_raises (names dog_result) dog_box).
  { right. left. exists 16%Z. split; reflexivity. }
  split; [reflexivity|]. split; [reflexivity|]. split; [reflexivity|].
  split; [exact Hin|]. split; [exact Hr|].
  refine (bad_box_ends_capture dog_state ["dog"] [["cat"]] dog_result dog_box
            _ _ _ Hin Hr); reflexivity.
Defined.

End DogRuns.
